(** * Autonomous sailing: guidance module and race-frame navigation

    A shallow embedding of [guidance_module.c] and [navigation.c] of the
    autonomous sailing application, and the properties of the control
    core that are stated about them; then the main loop of
    [autonomous_sailing.c], which drives the two modules, and the byte
    scanning functions of [parser_200WX.c], which feed them.

    Numeric model.  The C code computes on [float] and [double].  Here a
    floating-point value is an exact rational ([Q]): every arithmetic
    operation is the exact one, comparisons are the rational order, and
    rounding, infinities and NaN are outside the model.  Decimal literals
    denote their decimal value.  A division by zero, which gives an
    infinity or NaN in C, gives 0 in [Q]; a statement about a quotient
    either has a non-zero divisor or has the same quotient on both sides.
    What the code does with a zero divisor is the subject of the module
    [ieee], a second embedding of the sail path of a cycle on values that
    include the infinities and NaN.
    Equality of computed values is stated with [==] ([Qeq]) and not with
    Leibniz equality, unless a value is only copied.  [int32_t] is a [Z]
    in the 32-bit range; conversions between the two are written out
    below. *)

From Stdlib Require Import ZArith QArith Qround Qabs Qfield Lia Lqa Bool List Ascii String.
From stdpp Require Import base vector.

Open Scope Q_scope.

(** ** Floating-point comparisons and conversions *)

(** [x < y] on floats, as a boolean.  [x <= y] is [Qle_bool]. *)
Definition Qlt_bool (x y : Q) : bool := negb (Qle_bool y x).

Notation "x <? y" := (Qlt_bool x y) : Q_scope.
Notation "x >? y" := (Qlt_bool y x) (only parsing) : Q_scope.
Notation "x <=? y" := (Qle_bool x y) : Q_scope.
Notation "x >=? y" := (Qle_bool y x) (only parsing) : Q_scope.

Definition INT32_MIN : Z := (- 2 ^ 31)%Z.
Definition INT32_MAX : Z := (2 ^ 31 - 1)%Z.

(** Rounding toward zero, the direction of a C cast to an integer type. *)
Definition Qtruncate (q : Q) : Z := Z.quot (Qnum q) (Zpos (Qden q)).

(** [(int32_t) q].  A value inside the range is truncated toward zero.
    C leaves the conversion undefined outside the range; the model takes
    the saturating result of the conversion instruction of the target
    FPU, and no statement below relies on that choice without saying so. *)
Definition float_to_int32 (q : Q) : Z :=
  Z.max INT32_MIN (Z.min INT32_MAX (Qtruncate q)).

(** 32-bit two's complement wrap-around of an integer result. *)
Definition int32_wrap (z : Z) : Z :=
  ((z + 2 ^ 31) mod 2 ^ 32 - 2 ^ 31)%Z.

Definition M_PI_F : Q := 3.14159265358979323846.
Definition TWO_M_PI_F : Q := 6.28318530717959.

(** ** Arrays of two readings

    [roll_before_tack] and [yaw_before_tack] are [float[2]]; every access
    in the source uses the index 0 (attitude estimator) or 1 (weather
    station). *)

Inductive index2 : Set := i0 | i1.

Definition float2 : Type := (Q * Q)%type.

Definition nth2 (a : float2) (i : index2) : Q :=
  match i with i0 => fst a | i1 => snd a end.

Definition set2 (a : float2) (i : index2) (v : Q) : float2 :=
  match i with i0 => (v, snd a) | i1 => (fst a, v) end.

(** ** Static data of the guidance module *)

Module tack_data.
Record t : Type := mk {
  boat_is_tacking : bool;      (* true if boat is performing a tack maneuver *)
  tack_rudder_command : Q;     (* value of the rudder command during tack *)
  roll_before_tack : float2;   (* roll angles (EKF, weather station) before tacking *)
  yaw_before_tack : float2;    (* yaw angles (EKF, weather station) before tacking *)
  roll_stop_tack : Q;          (* first stop condition *)
  yaw_stop_tack : Q            (* second stop condition *)
}.

Definition init : t :=
  {| boat_is_tacking := false;
     tack_rudder_command := 0;
     roll_before_tack := (0, 0);
     yaw_before_tack := (0, 0);
     roll_stop_tack := 2;
     yaw_stop_tack := 1.04 |}.
End tack_data.

Module sail_controller_data.
Record t : Type := mk {
  position_quantum : Q;
  command_quantum : Q
}.
End sail_controller_data.

Module pi_rudder_data.
Record t : Type := mk {
  p : Q;                  (* proportional gain *)
  i : Q;                  (* integral gain *)
  kaw : Q;                (* anti wind-up constant of the normal digital PI *)
  cp : Q;                 (* conditional integral, proportional action *)
  ci : Q;                 (* conditional integral, integral action *)
  use_conditional : bool; (* PI with conditional integral is in use *)
  last_command : Q;       (* last command provided by the PI *)
  sum_error_pi : Q        (* error sum over the iterations *)
}.

Definition init : t :=
  {| p := 0; i := 0; kaw := 0.5; cp := 1; ci := 1;
     use_conditional := true; last_command := 0; sum_error_pi := 0 |}.
End pi_rudder_data.

(** The three file-level statics of [guidance_module.c]. *)
Record guidance_state : Type := mk_guidance_state {
  tack_data : tack_data.t;
  sail_controller_data : sail_controller_data.t;
  pi_rudder_data : pi_rudder_data.t
}.

(** ** Data exchanged with the caller *)

Record reference_actions_s : Type := mk_reference_actions {
  alpha_star : Q;     (* optimal heading w.r.t. true wind direction *)
  should_tack : bool  (* true if boat should tack as soon as possible *)
}.

Record parameters_qgc : Type := mk_parameters_qgc {
  sail_servo : Q  (* manual sail command, negative when disabled *)
}.

Record vehicle_attitude_s : Type := mk_att { roll : Q; yaw : Q }.

Record boat_weather_station_s : Type := mk_bws { roll_r : Q; heading_tn : Q }.

Record vehicle_global_position_s : Type := mk_gpos { lat : Q; lon : Q; alt : Q }.

(** Modelled from the spec: the size of the fixed-size control array of
    the actuator controls topic, whose header is not among the sources.
    The guidance module writes the indices 0 (rudder) and 3 (sail); 8 is
    the size in the flight stack. *)
Definition NUM_ACTUATOR_CONTROLS : nat := 8.

Record boat_guidance_debug_s : Type := mk_debug {
  timestamp : Z;
  alpha : Q;
  rudder_action : Q;
  sail_action : Q;
  twd_mean : Q;
  app_mean : Q
}.

(** The fields of [structs_topics_s] that the two modules read or write. *)
Record structs_topics_s : Type := mk_topics {
  att : vehicle_attitude_s;
  boat_weather_station : boat_weather_station_s;
  gps_filtered : vehicle_global_position_s;
  actuators_control : vec Q NUM_ACTUATOR_CONTROLS;
  boat_guidance_debug : boat_guidance_debug_s
}.

(** What the collaborators answer during one control cycle: the averaged
    readings of [controller_data.h] and the clock. *)
Record controller_data : Type := mk_controller_data {
  get_alpha : Q;
  get_alpha_yaw : Q;
  get_app_wind : Q;
  get_twd : Q;
  hrt_absolute_time : Z
}.

(** Calls made to the collaborators for their effect only. *)
Inductive event : Type :=
  | notify_tack_completed
  | send_log_info (txt_msg : string).

(** ** The guidance module *)

(** Servo limits and helmsman set points.  They are macros of a settings
    header that is not among the sources, hence parameters of the model. *)
Class settings : Type := mk_settings {
  RUDDER_SATURATION : Q;
  SAIL_SATURATION : Q;
  RUDDER_45_LEFT : Q;
  SAIL_20 : Q
}.

Section Guidance.

Context `{settings}.

Definition sail_controller_data_init : sail_controller_data.t :=
  {| sail_controller_data.position_quantum := M_PI_F / 4;
     sail_controller_data.command_quantum := SAIL_SATURATION / 4 |}.

Definition guidance_init : guidance_state :=
  {| tack_data := tack_data.init;
     sail_controller_data := sail_controller_data_init;
     pi_rudder_data := pi_rudder_data.init |}.

(** [set_stop_tack]: the yaw threshold arrives in degrees. *)
Definition set_stop_tack (roll_stop yaw_stop : Q) (td : tack_data.t) : tack_data.t :=
  {| tack_data.boat_is_tacking := tack_data.boat_is_tacking td;
     tack_data.tack_rudder_command := tack_data.tack_rudder_command td;
     tack_data.roll_before_tack := tack_data.roll_before_tack td;
     tack_data.yaw_before_tack := tack_data.yaw_before_tack td;
     tack_data.roll_stop_tack := roll_stop;
     tack_data.yaw_stop_tack := yaw_stop * M_PI_F / 180 |}.

(** Saturation of the rudder command to the servo limits. *)
Definition rudder_saturation (command : Q) : Q :=
  if command >? RUDDER_SATURATION then RUDDER_SATURATION
  else if command <? - RUDDER_SATURATION then - RUDDER_SATURATION
  else command.

(** [pi_controller]: returns the action and the updated PI data. *)
Definition pi_controller (ref meas : Q) (pd : pi_rudder_data.t) : Q * pi_rudder_data.t :=
  let error := ref - meas in
  let '(proportional_part, integral_part, sum) :=
    if pi_rudder_data.use_conditional pd then
      let abs_error := if error >? 0 then error else - error in
      let sum := pi_rudder_data.sum_error_pi pd + error in
      let i_gain := pi_rudder_data.i pd / (1 + pi_rudder_data.ci pd * error * error) in
      let integral_part := i_gain * sum in
      let p_gain := pi_rudder_data.p pd / (1 + pi_rudder_data.cp pd * abs_error) in
      (p_gain * error, integral_part, sum)
    else
      let input_kaw :=
        rudder_saturation (pi_rudder_data.last_command pd) - pi_rudder_data.last_command pd in
      let sum := pi_rudder_data.sum_error_pi pd + (error + pi_rudder_data.kaw pd * input_kaw) in
      (pi_rudder_data.p pd * error, pi_rudder_data.i pd * sum, sum) in
  let action := proportional_part + integral_part in
  (action,
   {| pi_rudder_data.p := pi_rudder_data.p pd;
      pi_rudder_data.i := pi_rudder_data.i pd;
      pi_rudder_data.kaw := pi_rudder_data.kaw pd;
      pi_rudder_data.cp := pi_rudder_data.cp pd;
      pi_rudder_data.ci := pi_rudder_data.ci pd;
      pi_rudder_data.use_conditional := pi_rudder_data.use_conditional pd;
      pi_rudder_data.last_command := action;
      pi_rudder_data.sum_error_pi := sum |}).

(** [set_pi_rudder_data]: new gains; the PI memory is cleared and a
    message is logged when the kind of PI changes. *)
Definition set_pi_rudder_data (p i cp ci : Q) (use_conditional : Z) (kaw : Q)
    (pd : pi_rudder_data.t) : pi_rudder_data.t * list event :=
  let switched :=
    (pi_rudder_data.use_conditional pd && (use_conditional <=? 0)%Z)
    || (negb (pi_rudder_data.use_conditional pd) && (use_conditional >? 0)%Z) in
  let txt_msg :=
    if (use_conditional >? 0)%Z then "Switched to PI with conditional integration."%string
    else "Switched to normal PI with anti wind-up gain."%string in
  ({| pi_rudder_data.p := p;
      pi_rudder_data.i := i;
      pi_rudder_data.kaw := kaw;
      pi_rudder_data.cp := cp;
      pi_rudder_data.ci := ci;
      pi_rudder_data.use_conditional := (use_conditional >? 0)%Z;
      pi_rudder_data.last_command := if switched then 0 else pi_rudder_data.last_command pd;
      pi_rudder_data.sum_error_pi := if switched then 0 else pi_rudder_data.sum_error_pi pd |},
   if switched then [send_log_info txt_msg] else []).

(** First stop condition of a tack, on the roll angle of one source. *)
Definition roll_stop_tack (angle : Q) (index_roll : index2) (td : tack_data.t) : bool :=
  let before := nth2 (tack_data.roll_before_tack td) index_roll in
  if before >? 0 then
    angle <=? (- before / tack_data.roll_stop_tack td)
  else if before <? 0 then
    angle >=? (- before / tack_data.roll_stop_tack td)
  else false.

(** Second stop condition of a tack, on the yaw angle of one source. *)
Definition yaw_stop_tack (angle : Q) (index_yaw : index2) (td : tack_data.t) : bool :=
  let before := nth2 (tack_data.yaw_before_tack td) index_yaw in
  if tack_data.tack_rudder_command td >? 0 then
    (* steering on the left *)
    let angle :=
      if before <? 0 then (if angle <? 0 then angle else -2 * M_PI_F + angle)
      else angle in
    (angle - before) <=? - tack_data.yaw_stop_tack td
  else
    (* steering on the right *)
    let angle :=
      if before >? 0 then (if angle >? 0 then angle else 2 * M_PI_F + angle)
      else angle in
    (angle - before) >=? tack_data.yaw_stop_tack td.

(** A tack is completed when both conditions hold, each on either source. *)
Definition is_tack_completed (strs : structs_topics_s) (td : tack_data.t) : bool :=
  let first_cond :=
    roll_stop_tack (roll (att strs)) i0 td
    || roll_stop_tack (roll_r (boat_weather_station strs)) i1 td in
  let second_cond :=
    yaw_stop_tack (yaw (att strs)) i0 td
    || yaw_stop_tack (heading_tn (boat_weather_station strs)) i1 td in
  first_cond && second_cond.

(** Helmsman rule base, tack from port haul to starboard haul:
    the pair (rudder, sails). *)
Definition helmsman_tack_p2s (alpha : Q) : Q * Q :=
  let rud :=
    if alpha <=? -0.523598 then RUDDER_45_LEFT
    else if alpha <=? 0 then (- RUDDER_45_LEFT / 0.523598) * alpha
    else if alpha <=? 0.31416 then (RUDDER_45_LEFT / 0.31416) * alpha
    else if alpha <=? 0.38397 then RUDDER_45_LEFT
    else if alpha <=? 0.69813 then
      (- RUDDER_45_LEFT / 0.31416) * alpha + (RUDDER_45_LEFT / 0.31416) * 0.69813
    else 0 in
  let sails :=
    if alpha <=? -0.523598 then (- SAIL_20 / 1.047197) * alpha - SAIL_20 * 0.5
    else if alpha <=? 0.0872664 then 0
    else if alpha <=? 0.270526 then (SAIL_20 / 0.183259) * alpha - (SAIL_20 * 0.476190)
    else if alpha <=? 0.3403392 then SAIL_20
    else if alpha <=? 0.523598 then (- SAIL_20 / 0.183259) * alpha + (SAIL_20 * 2.857142857)
    else 0 in
  (rud, sails).

(** Helmsman rule base, tack from starboard haul to port haul. *)
Definition helmsman_tack_s2p (alpha : Q) : Q * Q :=
  let alpha_port := - alpha in
  let '(rudder_port, sails) := helmsman_tack_p2s alpha_port in
  (- rudder_port, sails).

(** [tack_action]: called while [should_tack] holds.  Starts the tack or
    checks whether it is over, then computes the helmsman commands in
    either case.  Returns the updated reference action and tack data,
    the pair (rudder, sails) written through the two pointers, and the
    calls made to the collaborators. *)
Definition tack_action (ref_act : reference_actions_s) (strs : structs_topics_s)
    (cd : controller_data) (td : tack_data.t)
    : reference_actions_s * tack_data.t * (Q * Q) * list event :=
  let '(ref_act, td, events) :=
    if tack_data.boat_is_tacking td then
      (* the maneuver has already started: stop it or keep it on *)
      if is_tack_completed strs td then
        ({| alpha_star := alpha_star ref_act; should_tack := false |},
         {| tack_data.boat_is_tacking := false;
            tack_data.tack_rudder_command := tack_data.tack_rudder_command td;
            tack_data.roll_before_tack := tack_data.roll_before_tack td;
            tack_data.yaw_before_tack := tack_data.yaw_before_tack td;
            tack_data.roll_stop_tack := tack_data.roll_stop_tack td;
            tack_data.yaw_stop_tack := tack_data.yaw_stop_tack td |},
         [notify_tack_completed; send_log_info "Tack completed."])
      else (ref_act, td, [])
    else
      (* the maneuver starts: save the actual roll and yaw angles *)
      (ref_act,
       {| tack_data.boat_is_tacking := true;
          tack_data.tack_rudder_command := tack_data.tack_rudder_command td;
          tack_data.roll_before_tack :=
            set2 (set2 (tack_data.roll_before_tack td) i0 (roll (att strs)))
                 i1 (roll_r (boat_weather_station strs));
          tack_data.yaw_before_tack :=
            set2 (set2 (tack_data.yaw_before_tack td) i0 (yaw (att strs)))
                 i1 (heading_tn (boat_weather_station strs));
          tack_data.roll_stop_tack := tack_data.roll_stop_tack td;
          tack_data.yaw_stop_tack := tack_data.yaw_stop_tack td |},
       []) in
  let sailing_at_port_haul := - alpha_star ref_act <? 0 in
  let alpha_yaw := get_alpha_yaw cd in
  let commands :=
    if sailing_at_port_haul then helmsman_tack_p2s alpha_yaw
    else helmsman_tack_s2p alpha_yaw in
  (ref_act, td, commands, events).

(** Sail trim from the mean apparent wind angle. *)
Definition sail_controller (cd : controller_data) (sd : sail_controller_data.t) : Q :=
  let mean_apparent := get_app_wind cd in
  let abs_angle := if mean_apparent >? 0 then mean_apparent else - mean_apparent in
  let sector := float_to_int32 (abs_angle / sail_controller_data.position_quantum sd) in
  SAIL_SATURATION - inject_Z sector * sail_controller_data.command_quantum sd.

(** [set_sail_positions]: [num] positions are available for the sail. *)
Definition set_sail_positions (num : Z) : sail_controller_data.t :=
  {| sail_controller_data.position_quantum := M_PI_F / inject_Z num;
     sail_controller_data.command_quantum := SAIL_SATURATION / inject_Z num |}.

(** Clamp of the sail command at the end of [guidance_module]. *)
Definition sail_saturation (sail_command : Q) : Q :=
  if sail_command <? 0 then 0
  else if sail_command >? SAIL_SATURATION then SAIL_SATURATION
  else sail_command.

(** [guidance_module]: one control cycle.  Returns the reference action
    and the topics as the caller finds them afterwards, the statics of
    the module, and the calls made to the collaborators. *)
Definition guidance_module (ref_act : reference_actions_s) (param_qgc : parameters_qgc)
    (strs : structs_topics_s) (cd : controller_data) (g : guidance_state)
    : reference_actions_s * structs_topics_s * guidance_state * list event :=
  let alpha := get_alpha cd in
  let rudder_command := 0 in
  let sail_command := 0 in
  let '(ref_act, td, (rudder_command, sail_command), events) :=
    if should_tack ref_act then tack_action ref_act strs cd (tack_data g)
    else (ref_act, tack_data g, (rudder_command, sail_command), []) in
  let '(rudder_command, sail_command, pd) :=
    if negb (should_tack ref_act) then
      let '(action, pd) := pi_controller (alpha_star ref_act) alpha (pi_rudder_data g) in
      (action,
       if sail_servo param_qgc <? 0 then sail_controller cd (sail_controller_data g)
       else sail_servo param_qgc,
       pd)
    else (rudder_command, sail_command, pi_rudder_data g) in
  let rudder_command := rudder_saturation rudder_command in
  let sail_command := sail_saturation sail_command in
  (ref_act,
   {| att := att strs;
      boat_weather_station := boat_weather_station strs;
      gps_filtered := gps_filtered strs;
      actuators_control :=
        vinsert (3%fin : fin NUM_ACTUATOR_CONTROLS) sail_command
          (vinsert (0%fin : fin NUM_ACTUATOR_CONTROLS) rudder_command
             (actuators_control strs));
      boat_guidance_debug :=
        {| timestamp := hrt_absolute_time cd;
           alpha := alpha;
           rudder_action := rudder_command;
           sail_action := sail_command;
           twd_mean := get_twd cd;
           app_mean := get_app_wind cd |} |},
   {| tack_data := td;
      sail_controller_data := sail_controller_data g;
      pi_rudder_data := pd |},
   events).

End Guidance.

(** ** Navigation: from geodetic coordinates to the race frame *)

(** The functions of the C mathematical library that [navigation.c]
    calls.  They are not rational functions and are kept abstract. *)
Class libm : Type := mk_libm {
  cos : Q -> Q;
  sin : Q -> Q;
  tan : Q -> Q;
  sqrt : Q -> Q;
  atan2 : Q -> Q -> Q;
  pow : Q -> Q -> Q
}.

Module ned_to_race_s.
Record t : Type := mk {
  sin_mwd : Q;            (* sin(mean wind direction) *)
  cos_mwd : Q;            (* cos(mean wind direction) *)
  n0_dm : Z;              (* north distance of the race origin from the NED origin [dm] *)
  e0_dm : Z;              (* east distance of the race origin from the NED origin [dm] *)
  mean_wind_angle_r : Q   (* mean wind angle set by QGC *)
}.
End ned_to_race_s.

(** The file-level statics of [navigation.c]. *)
Record navigation_state : Type := mk_navigation_state {
  cosPhi : Q;      (* cos(lat0) *)
  sinPhi : Q;      (* sin(lat0) *)
  cosLambda : Q;   (* cos(lon0) *)
  sinLambda : Q;   (* sin(lon0) *)
  x0_dm : Z;       (* ECEF coordinates of the NED origin, in decimeters *)
  y0_dm : Z;
  z0_dm : Z;
  ned_to_race_s : ned_to_race_s.t
}.

Record local_position_race_s : Type := mk_local_position_race {
  x_race_m : Q;
  y_race_m : Q
}.

Definition squared_one_minus_flatness_m : Q := 0.99330561993959.
Definition squared_earth_radius_m : Q := 40680631590769.
Definition deg2rad : Q := 0.0174532925199433.
Definition E7 : Q := 10000000.
Definition E3 : Q := 1000.
Definition E1 : Q := 10.

Definition navigation_init : navigation_state :=
  {| cosPhi := 0; sinPhi := 0; cosLambda := 0; sinLambda := 0;
     x0_dm := 0; y0_dm := 0; z0_dm := 0;
     ned_to_race_s :=
       {| ned_to_race_s.sin_mwd := 0; ned_to_race_s.cos_mwd := 0;
          ned_to_race_s.n0_dm := 0; ned_to_race_s.e0_dm := 0;
          ned_to_race_s.mean_wind_angle_r := 0 |} |}.

Section Navigation.

Context `{libm}.

(** Degrees * 1e7 to radians. *)
Definition degE7_to_rad (deg_e7 : Z) : Q := (inject_Z deg_e7 / E7) * deg2rad.

(** Geodetic coordinates to ECEF coordinates, in decimeters. *)
Definition geo_to_ecef (lat_d_e7 lon_d_e7 alt_mm : Z) : Z * Z * Z :=
  let mu_r := degE7_to_rad lat_d_e7 in
  let l_r := degE7_to_rad lon_d_e7 in
  let h_m := inject_Z alt_mm / E3 in
  let lab_s_r := atan2 (squared_one_minus_flatness_m * tan mu_r) 1 in
  let r_s_m :=
    sqrt (squared_earth_radius_m /
          (1 + ((1 / squared_one_minus_flatness_m) - 1) * pow (sin lab_s_r) 2)) in
  (float_to_int32 ((r_s_m * cos lab_s_r * cos l_r + h_m * cos mu_r * cos l_r) * E1),
   float_to_int32 ((r_s_m * cos lab_s_r * sin l_r + h_m * cos mu_r * sin l_r) * E1),
   float_to_int32 ((r_s_m * sin lab_s_r + h_m * sin mu_r) * E1)).

(** ECEF coordinates to NED coordinates, in decimeters. *)
Definition ecef_to_ned (ns : navigation_state) (x_dm y_dm z_dm : Z) : Z * Z * Z :=
  let u_dm := int32_wrap (x_dm - x0_dm ns) in
  let v_dm := int32_wrap (y_dm - y0_dm ns) in
  let w_dm := int32_wrap (z_dm - z0_dm ns) in
  let t_dm := cosLambda ns * inject_Z u_dm + sinLambda ns * inject_Z v_dm in
  (float_to_int32 (- sinPhi ns * t_dm + cosPhi ns * inject_Z w_dm),
   float_to_int32 (- sinLambda ns * inject_Z u_dm + cosLambda ns * inject_Z v_dm),
   float_to_int32 (- cosPhi ns * t_dm - sinPhi ns * inject_Z w_dm)).

(** Geodetic position to (north, east, down), in decimeters. *)
Definition geo_to_ned (ns : navigation_state) (gps : vehicle_global_position_s) : Z * Z * Z :=
  let lat_d_e7 := float_to_int32 (lat gps * E7) in
  let lon_d_e7 := float_to_int32 (lon gps * E7) in
  let alt_mm := float_to_int32 (alt gps * E3) in
  let '(x_dm, y_dm, z_dm) := geo_to_ecef lat_d_e7 lon_d_e7 alt_mm in
  ecef_to_ned ns x_dm y_dm z_dm.

(** Geodetic position to (x, y) in the race frame, in decimeters. *)
Definition geo_to_race (ns : navigation_state) (gps : vehicle_global_position_s) : Z * Z :=
  let '(north_dm, east_dm, down_dm) := geo_to_ned ns gps in
  let r := ned_to_race_s ns in
  (float_to_int32
     (- ned_to_race_s.cos_mwd r * inject_Z north_dm
      - ned_to_race_s.sin_mwd r * inject_Z east_dm
      + ned_to_race_s.cos_mwd r * inject_Z (ned_to_race_s.n0_dm r)
      + ned_to_race_s.sin_mwd r * inject_Z (ned_to_race_s.e0_dm r)),
   float_to_int32
     (- ned_to_race_s.sin_mwd r * inject_Z north_dm
      + ned_to_race_s.cos_mwd r * inject_Z east_dm
      + ned_to_race_s.sin_mwd r * inject_Z (ned_to_race_s.n0_dm r)
      - ned_to_race_s.cos_mwd r * inject_Z (ned_to_race_s.e0_dm r))).

(** [set_ref0]: new origin of the NED frame. *)
Definition set_ref0 (lat0_d_e7 lon0_d_e7 alt0_mm : Z) (ns : navigation_state)
    : navigation_state :=
  let '(x0, y0, z0) := geo_to_ecef lat0_d_e7 lon0_d_e7 alt0_mm in
  {| cosPhi := cos (degE7_to_rad lat0_d_e7);
     sinPhi := sin (degE7_to_rad lat0_d_e7);
     cosLambda := cos (degE7_to_rad lon0_d_e7);
     sinLambda := sin (degE7_to_rad lon0_d_e7);
     x0_dm := x0; y0_dm := y0; z0_dm := z0;
     ned_to_race_s := ned_to_race_s ns |}.

Definition with_ned_to_race (ns : navigation_state) (r : ned_to_race_s.t)
    : navigation_state :=
  {| cosPhi := cosPhi ns; sinPhi := sinPhi ns;
     cosLambda := cosLambda ns; sinLambda := sinLambda ns;
     x0_dm := x0_dm ns; y0_dm := y0_dm ns; z0_dm := z0_dm ns;
     ned_to_race_s := r |}.

(** [set_mean_wind_angle]: mean wind direction w.r.t. true North. *)
Definition set_mean_wind_angle (mean_wind : Q) (ns : navigation_state) : navigation_state :=
  let r := ned_to_race_s ns in
  with_ned_to_race ns
    {| ned_to_race_s.sin_mwd := sin mean_wind;
       ned_to_race_s.cos_mwd := cos mean_wind;
       ned_to_race_s.n0_dm := ned_to_race_s.n0_dm r;
       ned_to_race_s.e0_dm := ned_to_race_s.e0_dm r;
       ned_to_race_s.mean_wind_angle_r := mean_wind |}.

Definition get_mean_wind_angle (ns : navigation_state) : Q :=
  ned_to_race_s.mean_wind_angle_r (ned_to_race_s ns).

(** [set_pos_top_mark]: the top mark becomes the origin of the race frame. *)
Definition set_pos_top_mark (lat_d_e7 lon_d_e7 alt_mm : Z) (ns : navigation_state)
    : navigation_state :=
  let temp_pos :=
    {| lat := inject_Z lat_d_e7 / E7;
       lon := inject_Z lon_d_e7 / E7;
       alt := inject_Z alt_mm / E3 |} in
  let '(north_dm, east_dm, down_dm) := geo_to_ned ns temp_pos in
  let r := ned_to_race_s ns in
  with_ned_to_race ns
    {| ned_to_race_s.sin_mwd := ned_to_race_s.sin_mwd r;
       ned_to_race_s.cos_mwd := ned_to_race_s.cos_mwd r;
       ned_to_race_s.n0_dm := north_dm;
       ned_to_race_s.e0_dm := east_dm;
       ned_to_race_s.mean_wind_angle_r := ned_to_race_s.mean_wind_angle_r r |}.

(** [navigation_module]: the boat position in the race frame, in meters. *)
Definition navigation_module (ns : navigation_state) (strs : structs_topics_s)
    : local_position_race_s :=
  let '(x_dm, y_dm) := geo_to_race ns (gps_filtered strs) in
  {| x_race_m := inject_Z x_dm / E1; y_race_m := inject_Z y_dm / E1 |}.

End Navigation.

(** ** Reachable states of the guidance module

    The statics of [guidance_module.c] change only through the functions
    of that file.  A call is one of them together with its arguments; the
    caller-owned structures and the readings of a cycle are arbitrary. *)

Inductive guidance_call : Type :=
  | call_set_stop_tack (roll_stop yaw_stop : Q)
  | call_set_pi_rudder_data (p i cp ci : Q) (use_conditional : Z) (kaw : Q)
  | call_set_sail_positions (num : Z)
  | call_pi_controller (ref meas : Q)
  | call_tack_action (ref_act : reference_actions_s) (strs : structs_topics_s)
      (cd : controller_data)
  | call_guidance_module (ref_act : reference_actions_s) (param_qgc : parameters_qgc)
      (strs : structs_topics_s) (cd : controller_data).

Section Reachability.

Context `{settings}.

Definition guidance_step (g : guidance_state) (c : guidance_call) : guidance_state :=
  match c with
  | call_set_stop_tack roll_stop yaw_stop =>
      {| tack_data := set_stop_tack roll_stop yaw_stop (tack_data g);
         sail_controller_data := sail_controller_data g;
         pi_rudder_data := pi_rudder_data g |}
  | call_set_pi_rudder_data p i cp ci use_conditional kaw =>
      {| tack_data := tack_data g;
         sail_controller_data := sail_controller_data g;
         pi_rudder_data :=
           fst (set_pi_rudder_data p i cp ci use_conditional kaw (pi_rudder_data g)) |}
  | call_set_sail_positions num =>
      {| tack_data := tack_data g;
         sail_controller_data := set_sail_positions num;
         pi_rudder_data := pi_rudder_data g |}
  | call_pi_controller ref meas =>
      {| tack_data := tack_data g;
         sail_controller_data := sail_controller_data g;
         pi_rudder_data := snd (pi_controller ref meas (pi_rudder_data g)) |}
  | call_tack_action ref_act strs cd =>
      let '(_, td, _, _) := tack_action ref_act strs cd (tack_data g) in
      {| tack_data := td;
         sail_controller_data := sail_controller_data g;
         pi_rudder_data := pi_rudder_data g |}
  | call_guidance_module ref_act param_qgc strs cd =>
      let '(_, _, g', _) := guidance_module ref_act param_qgc strs cd g in g'
  end.

Inductive reachable : guidance_state -> Prop :=
  | reachable_init : reachable guidance_init
  | reachable_step g c : reachable g -> reachable (guidance_step g c).

(** The state after a sequence of calls, oldest first. *)
Definition run_calls (g : guidance_state) (cs : list guidance_call) : guidance_state :=
  fold_left guidance_step cs g.

End Reachability.

(** ** Statements

    The quantities the properties are about, read off the source, and
    the formulas of the specification, in its own words (the definitions
    whose name ends in [_spec]). *)

Section Specification.

Context `{settings}.

(** *** Quantities of a cycle *)

(** The helmsman commands of a cycle: the law is chosen by the sign of
    [- alpha_star] and fed with the yaw-derived alpha. *)
Definition helmsman_commands (ref_act : reference_actions_s) (cd : controller_data) : Q * Q :=
  if - alpha_star ref_act <? 0 then helmsman_tack_p2s (get_alpha_yaw cd)
  else helmsman_tack_s2p (get_alpha_yaw cd).

(** The commands of the tracking path of a cycle: PI rudder, and sail
    trim or manual override. *)
Definition tracking_commands (ref_act : reference_actions_s) (param_qgc : parameters_qgc)
    (cd : controller_data) (g : guidance_state) : Q * Q :=
  (fst (pi_controller (alpha_star ref_act) (get_alpha cd) (pi_rudder_data g)),
   if sail_servo param_qgc <? 0 then sail_controller cd (sail_controller_data g)
   else sail_servo param_qgc).

(** Rudder and sail entries of the actuator controls after a cycle. *)
Definition published_rudder
    (out : reference_actions_s * structs_topics_s * guidance_state * list event) : Q :=
  let '(_, strs, _, _) := out in
  actuators_control strs !!! (0%fin : fin NUM_ACTUATOR_CONTROLS).

Definition published_sail
    (out : reference_actions_s * structs_topics_s * guidance_state * list event) : Q :=
  let '(_, strs, _, _) := out in
  actuators_control strs !!! (3%fin : fin NUM_ACTUATOR_CONTROLS).

(** The branch of [yaw_stop_tack] for a boat steering on the right. *)
Definition yaw_stop_tack_right (angle : Q) (index_yaw : index2) (td : tack_data.t) : bool :=
  let before := nth2 (tack_data.yaw_before_tack td) index_yaw in
  let angle :=
    if before >? 0 then (if angle >? 0 then angle else 2 * M_PI_F + angle)
    else angle in
  (angle - before) >=? tack_data.yaw_stop_tack td.

(** Degrees to radians, with the constant the module uses. *)
Definition deg (d : Q) : Q := d * M_PI_F / 180.

(** *** Formulas of the specification *)

(** Sail trim: [sector = floor(|a| / angle_quantum)] and
    [command = SAIL_SATURATION - sector * command_quantum], with
    [angle_quantum = pi / n] and [command_quantum = SAIL_SATURATION / n]. *)
Definition sail_trim_spec (n : Z) (a : Q) : Q :=
  let angle_quantum := M_PI_F / inject_Z n in
  let command_quantum := SAIL_SATURATION / inject_Z n in
  SAIL_SATURATION - inject_Z (Qfloor (Qabs a / angle_quantum)) * command_quantum.

(** Race frame coordinates of a NED position, before truncation. *)
Definition race_x_spec (cos_mwd sin_mwd N E n0 e0 : Q) : Q :=
  - cos_mwd * N - sin_mwd * E + cos_mwd * n0 + sin_mwd * e0.

Definition race_y_spec (cos_mwd sin_mwd N E n0 e0 : Q) : Q :=
  - sin_mwd * N + cos_mwd * E + sin_mwd * n0 - cos_mwd * e0.

(** The helmsman commands are what the cycle publishes (after the final
    saturation). *)
Definition helmsman_published (ref_act : reference_actions_s) (param_qgc : parameters_qgc)
    (strs : structs_topics_s) (cd : controller_data) (g : guidance_state) : Prop :=
  let out := guidance_module ref_act param_qgc strs cd g in
  published_rudder out == rudder_saturation (fst (helmsman_commands ref_act cd)) /\
  published_sail out == sail_saturation (snd (helmsman_commands ref_act cd)).

(** The tracking commands are what the cycle publishes (after the final
    saturation). *)
Definition tracking_published (ref_act : reference_actions_s) (param_qgc : parameters_qgc)
    (strs : structs_topics_s) (cd : controller_data) (g : guidance_state) : Prop :=
  let out := guidance_module ref_act param_qgc strs cd g in
  published_rudder out == rudder_saturation (fst (tracking_commands ref_act param_qgc cd g)) /\
  published_sail out == sail_saturation (snd (tracking_commands ref_act param_qgc cd g)).

(** Extension of the yaw angle through South while turning left: a yaw
    that is not negative is moved down by a full turn. *)
Definition extended_yaw_left_spec (y : Q) : Q :=
  if y <? 0 then y else y - 2 * M_PI_F.

(** Extension while turning right, as the claim words it: a negative yaw
    is moved up by a full turn. *)
Definition extended_yaw_right_spec (y : Q) : Q :=
  if y <? 0 then y + 2 * M_PI_F else y.

(** [yaw_stop_tack] on source [i] agrees with the comparison of the swept
    angle with the threshold, for a given extension of the yaw when
    turning right. *)
Definition yaw_stop_tack_agrees (extended_yaw_right : Q -> Q)
    (td : tack_data.t) (i : index2) (y : Q) : Prop :=
  let before := nth2 (tack_data.yaw_before_tack td) i in
  (tack_data.tack_rudder_command td > 0 -> before < 0 ->
     (yaw_stop_tack y i td = true <->
      extended_yaw_left_spec y - before <= - tack_data.yaw_stop_tack td)) /\
  (~ tack_data.tack_rudder_command td > 0 -> before > 0 ->
     (yaw_stop_tack y i td = true <->
      extended_yaw_right y - before >= tack_data.yaw_stop_tack td)).

(** The roll stop condition of source [i]. *)
Definition roll_stop_tack_spec (td : tack_data.t) (i : index2) (roll : Q) : Prop :=
  let before := nth2 (tack_data.roll_before_tack td) i in
  (before > 0 /\ roll <= - before / tack_data.roll_stop_tack td) \/
  (before < 0 /\ roll >= - before / tack_data.roll_stop_tack td).


End Specification.

(** ** Values that are not numbers

    The sail path of a cycle a second time, on floating-point values
    that include the two infinities and NaN, with the rules of IEEE 754
    for them: [set_sail_positions], [sail_controller], the choice between
    the sail controller and the manual sail command in [guidance_module],
    and the two final saturations.  A finite value is an exact rational
    as everywhere else.  Every zero is the positive zero, which is the
    case on this path: its zeros are an integer 0 converted to [float]
    and quotients of values that are not negative.  A conversion to
    [int32_t] that C leaves undefined has no result. *)

Module ieee.

Inductive float : Type :=
  | finite (q : Q)
  | pinf
  | ninf
  | nan.

Definition opp (x : float) : float :=
  match x with
  | finite q => finite (- q)
  | pinf => ninf
  | ninf => pinf
  | nan => nan
  end.

(** [x > y]; false when either is NaN. *)
Definition gt (x y : float) : bool :=
  match x, y with
  | nan, _ | _, nan => false
  | finite a, finite b => b <? a
  | pinf, pinf => false
  | pinf, _ => true
  | ninf, _ => false
  | finite _, pinf => false
  | finite _, ninf => true
  end.

(** [x < y]; false when either is NaN. *)
Definition lt (x y : float) : bool := gt y x.

(** The infinity with the sign of [a], for [a] not zero. *)
Definition inf_of_sign (a : Q) : float := if 0 <? a then pinf else ninf.

Definition mul (x y : float) : float :=
  match x, y with
  | nan, _ | _, nan => nan
  | finite a, finite b => finite (a * b)
  | finite a, pinf | pinf, finite a => if Qeq_bool a 0 then nan else inf_of_sign a
  | finite a, ninf | ninf, finite a => if Qeq_bool a 0 then nan else inf_of_sign (- a)
  | pinf, pinf | ninf, ninf => pinf
  | pinf, ninf | ninf, pinf => ninf
  end.

Definition div (x y : float) : float :=
  match x, y with
  | nan, _ | _, nan => nan
  | finite a, finite b =>
      if Qeq_bool b 0 then (if Qeq_bool a 0 then nan else inf_of_sign a)
      else finite (a / b)
  | finite _, pinf | finite _, ninf => finite 0
  | pinf, finite b => if b <? 0 then ninf else pinf
  | ninf, finite b => if b <? 0 then pinf else ninf
  | pinf, pinf | pinf, ninf | ninf, pinf | ninf, ninf => nan
  end.

Definition sub (x y : float) : float :=
  match x, y with
  | nan, _ | _, nan => nan
  | finite a, finite b => finite (a - b)
  | finite _, pinf => ninf
  | finite _, ninf => pinf
  | pinf, pinf | ninf, ninf => nan
  | pinf, _ => pinf
  | ninf, _ => ninf
  end.

(** [(float) z] for an [int32_t]. *)
Definition of_int32 (z : Z) : float := finite (inject_Z z).

(** [(int32_t) x]: the truncation toward zero of a finite value inside
    the range, and no result otherwise. *)
Definition to_int32 (x : float) : option Z :=
  match x with
  | finite q =>
      let z := Qtruncate q in
      if ((INT32_MIN <=? z) && (z <=? INT32_MAX))%Z then Some z else None
  | _ => None
  end.

Record sail_controller_data : Type := mk_sail_controller_data {
  position_quantum : float;
  command_quantum : float
}.

Section Guidance.

Context `{settings}.

Definition set_sail_positions (num : Z) : sail_controller_data :=
  {| position_quantum := div (finite M_PI_F) (of_int32 num);
     command_quantum := div (finite SAIL_SATURATION) (of_int32 num) |}.

(** [sail_controller] on the mean apparent wind angle that
    [get_app_wind] returns. *)
Definition sail_controller (mean_apparent : float) (sd : sail_controller_data)
    : option float :=
  let abs_angle :=
    if gt mean_apparent (finite 0) then mean_apparent else opp mean_apparent in
  match to_int32 (div abs_angle (position_quantum sd)) with
  | None => None
  | Some sector =>
      Some (sub (finite SAIL_SATURATION) (mul (of_int32 sector) (command_quantum sd)))
  end.

Definition rudder_saturation (command : float) : float :=
  if gt command (finite RUDDER_SATURATION) then finite RUDDER_SATURATION
  else if lt command (opp (finite RUDDER_SATURATION)) then opp (finite RUDDER_SATURATION)
  else command.

(** Clamp of the sail command at the end of [guidance_module]. *)
Definition sail_saturation (sail_command : float) : float :=
  if lt sail_command (finite 0) then finite 0
  else if gt sail_command (finite SAIL_SATURATION) then finite SAIL_SATURATION
  else sail_command.

(** The sail command that a cycle of [guidance_module] without a tack
    writes at index 3 of the actuator controls. *)
Definition tracking_sail (sail_servo mean_apparent : float) (sd : sail_controller_data)
    : option float :=
  let sail_command :=
    if lt sail_servo (finite 0) then sail_controller mean_apparent sd
    else Some sail_servo in
  option_map sail_saturation sail_command.

End Guidance.

End ieee.

(** The sail controller data of the exact model, as finite values. *)
Definition ieee_of_exact (sd : sail_controller_data.t) : ieee.sail_controller_data :=
  {| ieee.position_quantum := ieee.finite (sail_controller_data.position_quantum sd);
     ieee.command_quantum := ieee.finite (sail_controller_data.command_quantum sd) |}.

(** ** Values to run the model on *)

(** Settings in the range of the servo commands. *)
Definition bench_settings : settings :=
  {| RUDDER_SATURATION := 0.9;
     SAIL_SATURATION := 0.56;
     RUDDER_45_LEFT := 0.85;
     SAIL_20 := 0.2 |}.

(** Rational stand-ins for the mathematical library: low-order Taylor
    polynomials and three Newton steps for the square root, each result
    rounded down to a multiple of 1e-6. *)
Definition to_micro (q : Q) : Q :=
  Qred (inject_Z (Qfloor (q * 1000000)) / 1000000).

Definition bench_libm : libm :=
  let cos_t x := to_micro (1 - x * x / 2) in
  let sin_t x := to_micro (x - x * x * x / 6) in
  let newton a y := to_micro ((y + a / y) / 2) in
  {| cos := cos_t;
     sin := sin_t;
     tan := fun x => to_micro (sin_t x / cos_t x);
     sqrt := fun a => newton a (newton a (newton a 6378137));
     atan2 := fun y x => to_micro (y / x);
     pow := fun x _ => to_micro (x * x) |}.

Definition bench_topics : structs_topics_s :=
  {| att := {| roll := 0; yaw := 0 |};
     boat_weather_station := {| roll_r := 0; heading_tn := 0 |};
     gps_filtered := {| lat := 0; lon := 0; alt := 0 |};
     actuators_control := vreplicate NUM_ACTUATOR_CONTROLS 0;
     boat_guidance_debug :=
       {| timestamp := 0; alpha := 0; rudder_action := 0; sail_action := 0;
          twd_mean := 0; app_mean := 0 |} |}.

Definition with_attitude (strs : structs_topics_s) (r y r_ws y_ws : Q) : structs_topics_s :=
  {| att := {| roll := r; yaw := y |};
     boat_weather_station := {| roll_r := r_ws; heading_tn := y_ws |};
     gps_filtered := gps_filtered strs;
     actuators_control := actuators_control strs;
     boat_guidance_debug := boat_guidance_debug strs |}.

(** A tack under way since roll was 1 rad and yaw 1 rad on the
    estimator, default stop values, default PI data. *)
Definition bench_tacking_state `{settings} : guidance_state :=
  {| tack_data :=
       {| tack_data.boat_is_tacking := true;
          tack_data.tack_rudder_command := 0;
          tack_data.roll_before_tack := (1, 0);
          tack_data.yaw_before_tack := (1, 0);
          tack_data.roll_stop_tack := 2;
          tack_data.yaw_stop_tack := 1.04 |};
     sail_controller_data := sail_controller_data_init;
     pi_rudder_data := pi_rudder_data.init |}.

Definition bench_ref_tack : reference_actions_s :=
  {| alpha_star := 0.5; should_tack := true |}.

Definition bench_param_qgc : parameters_qgc := {| sail_servo := -1 |}.

Definition bench_controller_data : controller_data :=
  {| get_alpha := 0.25; get_alpha_yaw := -1; get_app_wind := 3;
     get_twd := 0; hrt_absolute_time := 7 |}.

(** Readings on which the tack above is completed (roll -1, yaw 2.5)
    and readings on which it is not (roll -1, yaw 1.5). *)
Definition bench_topics_completed : structs_topics_s :=
  with_attitude bench_topics (-1) 2.5 0 0.

Definition bench_topics_turning : structs_topics_s :=
  with_attitude bench_topics (-1) 1.5 0 0.

(** Tracking far from the reference (the reference action the main loop
    starts with), a proportional gain of 1 and a manual sail command
    above the limit. *)
Definition bench_ref_track : reference_actions_s :=
  {| alpha_star := 30; should_tack := false |}.

Definition bench_param_override : parameters_qgc := {| sail_servo := 5 |}.

Definition bench_tracking_state `{settings} : guidance_state :=
  {| tack_data := tack_data.init;
     sail_controller_data := sail_controller_data_init;
     pi_rudder_data :=
       {| pi_rudder_data.p := 1; pi_rudder_data.i := 0; pi_rudder_data.kaw := 0.5;
          pi_rudder_data.cp := 0; pi_rudder_data.ci := 1;
          pi_rudder_data.use_conditional := true;
          pi_rudder_data.last_command := 0; pi_rudder_data.sum_error_pi := 0 |} |}.

(** A tack to the right from yaw 1 rad. *)
Definition bench_tack_right : tack_data.t :=
  {| tack_data.boat_is_tacking := true;
     tack_data.tack_rudder_command := 0;
     tack_data.roll_before_tack := (1, 0);
     tack_data.yaw_before_tack := (1, 0);
     tack_data.roll_stop_tack := 2;
     tack_data.yaw_stop_tack := 1 |}.

(** PI data with a proportional gain of 1 and no integral gain, with
    conditional integration and with the normal digital PI. *)
Definition bench_pi_conditional : pi_rudder_data.t :=
  {| pi_rudder_data.p := 1; pi_rudder_data.i := 0; pi_rudder_data.kaw := 0.5;
     pi_rudder_data.cp := 1; pi_rudder_data.ci := 1;
     pi_rudder_data.use_conditional := true;
     pi_rudder_data.last_command := 0; pi_rudder_data.sum_error_pi := 0 |}.

Definition bench_pi_normal : pi_rudder_data.t :=
  {| pi_rudder_data.p := 1; pi_rudder_data.i := 0; pi_rudder_data.kaw := 0.5;
     pi_rudder_data.cp := 1; pi_rudder_data.ci := 1;
     pi_rudder_data.use_conditional := false;
     pi_rudder_data.last_command := 2; pi_rudder_data.sum_error_pi := 3 |}.

(** A tack requested on the initial statics, from either haul. *)
Definition bench_ref_tack_from_starboard : reference_actions_s :=
  {| alpha_star := -0.5; should_tack := true |}.

Definition bench_topics_heeled : structs_topics_s :=
  with_attitude bench_topics 0.25 (-1.5) 0.5 (-1.25).

(** A race frame set up through the setters, and a position fix. *)
Definition bench_navigation_state : navigation_state :=
  let _ : libm := bench_libm in
  set_pos_top_mark 450001000 70001000 100000
    (set_mean_wind_angle 0.5
       (set_ref0 450000000 70000000 100000 navigation_init)).

Definition bench_gps : vehicle_global_position_s :=
  {| lat := 45.00005; lon := 7.00005; alt := 100 |}.

(** ** Runs of the guidance module *)

Section GuidanceRuns.

Context `{settings}.

(** Successive calls of [pi_controller] on pairs (reference, measure),
    oldest first: the actions returned and the PI data left. *)
Fixpoint pi_run (pd : pi_rudder_data.t) (calls : list (Q * Q)) : list Q * pi_rudder_data.t :=
  match calls with
  | [] => ([], pd)
  | (ref, meas) :: calls =>
      let '(action, pd) := pi_controller ref meas pd in
      let '(actions, pd) := pi_run pd calls in
      (action :: actions, pd)
  end.

(** The sum of the errors (reference - measure) of a list of calls. *)
Definition sum_errors (calls : list (Q * Q)) : Q :=
  fold_right (fun rm acc => (fst rm - snd rm) + acc) 0 calls.

(** What a caller supplies for one cycle: the parameters, fresh readings
    in the topics, and the answers of the collaborators. *)
Record cycle_input : Type := mk_cycle_input {
  cycle_param_qgc : parameters_qgc;
  cycle_att : vehicle_attitude_s;
  cycle_boat_weather_station : boat_weather_station_s;
  cycle_gps_filtered : vehicle_global_position_s;
  cycle_controller_data : controller_data
}.

(** The topics with the readings of a cycle copied in; what
    [guidance_module] wrote the cycle before stays. *)
Definition refresh_topics (strs : structs_topics_s) (c : cycle_input) : structs_topics_s :=
  {| att := cycle_att c;
     boat_weather_station := cycle_boat_weather_station c;
     gps_filtered := cycle_gps_filtered c;
     actuators_control := actuators_control strs;
     boat_guidance_debug := boat_guidance_debug strs |}.

(** A caller that runs [guidance_module] once per cycle on the same
    reference action and topics structures, as the main loop does, and
    never writes the reference action itself. *)
Fixpoint guidance_cycles (ref_act : reference_actions_s) (strs : structs_topics_s)
    (g : guidance_state) (cycles : list cycle_input)
    : reference_actions_s * structs_topics_s * guidance_state * list event :=
  match cycles with
  | [] => (ref_act, strs, g, [])
  | c :: cycles =>
      let '(ref_act, strs, g, events) :=
        guidance_module ref_act (cycle_param_qgc c) (refresh_topics strs c)
          (cycle_controller_data c) g in
      let '(ref_act, strs, g, events') := guidance_cycles ref_act strs g cycles in
      (ref_act, strs, g, events ++ events')
  end.

(** The mirror image of a tack: every stored angle and the stored rudder
    command with the opposite sign, and the same for the readings. *)
Definition mirror_tack_data (td : tack_data.t) : tack_data.t :=
  {| tack_data.boat_is_tacking := tack_data.boat_is_tacking td;
     tack_data.tack_rudder_command := - tack_data.tack_rudder_command td;
     tack_data.roll_before_tack :=
       (- fst (tack_data.roll_before_tack td), - snd (tack_data.roll_before_tack td));
     tack_data.yaw_before_tack :=
       (- fst (tack_data.yaw_before_tack td), - snd (tack_data.yaw_before_tack td));
     tack_data.roll_stop_tack := tack_data.roll_stop_tack td;
     tack_data.yaw_stop_tack := tack_data.yaw_stop_tack td |}.

Definition mirror_topics (strs : structs_topics_s) : structs_topics_s :=
  {| att := {| roll := - roll (att strs); yaw := - yaw (att strs) |};
     boat_weather_station :=
       {| roll_r := - roll_r (boat_weather_station strs);
          heading_tn := - heading_tn (boat_weather_station strs) |};
     gps_filtered := gps_filtered strs;
     actuators_control := actuators_control strs;
     boat_guidance_debug := boat_guidance_debug strs |}.

(** A tack is locked when it is under way, still requested, and was
    started at a roll of exactly zero on both sources. *)
Definition tack_locked (ref_act : reference_actions_s) (g : guidance_state) : Prop :=
  should_tack ref_act = true /\
  tack_data.boat_is_tacking (tack_data g) = true /\
  fst (tack_data.roll_before_tack (tack_data g)) == 0 /\
  snd (tack_data.roll_before_tack (tack_data g)) == 0.

End GuidanceRuns.

(** ** Positions handed to the navigation functions *)

(** The position that [set_pos_top_mark] builds from integer
    coordinates before it calls [geo_to_ned]. *)
Definition position_of_e7 (lat_d_e7 lon_d_e7 alt_mm : Z) : vehicle_global_position_s :=
  {| lat := inject_Z lat_d_e7 / E7;
     lon := inject_Z lon_d_e7 / E7;
     alt := inject_Z alt_mm / E3 |}.

Definition in_int32 (z : Z) : Prop := (INT32_MIN <= z <= INT32_MAX)%Z.

(** ** The main loop of the application

    [as_daemon_thread_main] of [autonomous_sailing.c] and the functions of
    that file it calls.  What the system and the collaborators deliver
    (results of [poll] and of the subscriptions, data copied from the
    topics, parameters, averaged readings) is an input; what the thread
    sends out is a trace. *)

Module autonomous_sailing.

(** The parameters from QGroundControl that the main loop reads: those of
    the guidance module and the origin of the NED frame. *)
Record parameters : Type := mk_parameters {
  qgc : parameters_qgc;
  lat0 : Z;
  lon0 : Z;
  alt0 : Z
}.

Record local_position_race_s : Type := mk_local_position_race {
  x_race_cm : Z;
  y_race_cm : Z
}.

(** Modelled from the spec: the reconfigurations that the parameter
    store, which is not among the sources, performs on the statics of the
    two modules when a parameter changes (PI gains, tack stop values,
    number of sail positions, mean wind angle, top mark, origin of the
    NED frame). *)
Inductive setter_call : Type :=
  | param_set_stop_tack (roll_stop yaw_stop : Q)
  | param_set_pi_rudder_data (p i cp ci : Q) (use_conditional : Z) (kaw : Q)
  | param_set_sail_positions (num : Z)
  | param_set_mean_wind_angle (mean_wind : Q)
  | param_set_pos_top_mark (lat_d_e7 lon_d_e7 alt_mm : Z)
  | param_set_ref0 (lat0_d_e7 lon0_d_e7 alt0_mm : Z).

(** What [param_init] or [param_check_update] leaves: the parameters and
    the setters it has called. *)
Record param_update : Type := mk_param_update {
  new_params : parameters;
  setter_calls : list setter_call
}.

(** One iteration of the loop, as the system drives it. *)
Record iteration : Type := mk_iteration {
  poll_ret : Z;
  gps_raw_pollin : bool;        (* fds[0].revents & POLLIN *)
  gps_filtered_pollin : bool;   (* fds[1].revents & POLLIN *)
  wind_sailing_pollin : bool;   (* fds[2].revents & POLLIN *)
  gps_raw_cog_rad : Q;          (* strs.gps_raw.cog_rad after orb_copy *)
  gps_filtered_copy : vehicle_global_position_s;
  wind_sailing_angle_true : Q;  (* strs.wind_sailing.angle_true after orb_copy *)
  param_check_update : param_update;
  readings : controller_data
}.

(** What the thread sends out. *)
Inductive app_event : Type :=
  | init_controller_data
  | warnx (msg : string)            (* the text, without its line ends *)
  | warn_poll_err (poll_ret : Z)
  | publish_actuator_armed
  | orb_advertise_actuators (control : vec Q NUM_ACTUATOR_CONTROLS)
  | orb_publish_actuators (control : vec Q NUM_ACTUATOR_CONTROLS)
  | update_cog (cog_rad : Q)
  | update_twd (angle_true : Q)
  | guidance_event (e : event).

(** The locals of the thread and the statics of the two modules. *)
Record thread_state : Type := mk_thread_state {
  strs : structs_topics_s;
  params : parameters;
  local_pos_r : local_position_race_s;
  ref_act : reference_actions_s;
  guidance : guidance_state;
  navigation : navigation_state
}.

Section MainLoop.

Context `{settings} `{libm}.

Definition apply_setter (gn : guidance_state * navigation_state) (c : setter_call)
    : guidance_state * navigation_state * list event :=
  let '(g, ns) := gn in
  match c with
  | param_set_stop_tack roll_stop yaw_stop =>
      (guidance_step g (call_set_stop_tack roll_stop yaw_stop), ns, [])
  | param_set_pi_rudder_data p i cp ci use_conditional kaw =>
      (guidance_step g (call_set_pi_rudder_data p i cp ci use_conditional kaw), ns,
       snd (set_pi_rudder_data p i cp ci use_conditional kaw (pi_rudder_data g)))
  | param_set_sail_positions num =>
      (guidance_step g (call_set_sail_positions num), ns, [])
  | param_set_mean_wind_angle mean_wind => (g, set_mean_wind_angle mean_wind ns, [])
  | param_set_pos_top_mark lat_d_e7 lon_d_e7 alt_mm =>
      (g, set_pos_top_mark lat_d_e7 lon_d_e7 alt_mm ns, [])
  | param_set_ref0 lat0_d_e7 lon0_d_e7 alt0_mm =>
      (g, set_ref0 lat0_d_e7 lon0_d_e7 alt0_mm ns, [])
  end.

Fixpoint apply_setters (gn : guidance_state * navigation_state) (cs : list setter_call)
    : guidance_state * navigation_state * list event :=
  match cs with
  | [] => (gn, [])
  | c :: cs =>
      let '(gn, ev) := apply_setter gn c in
      let '(gn, ev') := apply_setters gn cs in
      (gn, ev ++ ev')
  end.

Definition apply_param_update (u : param_update) (st : thread_state)
    : thread_state * list app_event :=
  let '(g, ns, ev) := apply_setters (guidance st, navigation st) (setter_calls u) in
  ({| strs := strs st; params := new_params u; local_pos_r := local_pos_r st;
      ref_act := ref_act st; guidance := g; navigation := ns |},
   map guidance_event ev).

(** [as_subscriber]: the three subscriptions, -1 on failure. *)
Definition as_subscriber (gps_raw gps_filtered wind_sailing : Z) : bool * list app_event :=
  if (gps_raw =? -1)%Z then
    (false, [warnx " error on subscribing on vehicle_gps_position Topic "])
  else if (gps_filtered =? -1)%Z then
    (false, [warnx " error on subscribing on vehicle_global_position Topic "])
  else if (wind_sailing =? -1)%Z then
    (false, [warnx " error on subscribing on wind_sailing Topic "])
  else (true, [warnx " subscribed to all topics "]).

(** [actuators_init]: arms, sets every control to zero and advertises
    them; [armed_pub_ok] and [actuator_pub_ok] tell whether the two
    advertisements gave a valid handle. *)
Definition actuators_init (armed_pub_ok actuator_pub_ok : bool) (s : structs_topics_s)
    : bool * structs_topics_s * list app_event :=
  let control := vreplicate NUM_ACTUATOR_CONTROLS 0 in
  (armed_pub_ok && actuator_pub_ok,
   {| att := att s;
      boat_weather_station := boat_weather_station s;
      gps_filtered := gps_filtered s;
      actuators_control := control;
      boat_guidance_debug := boat_guidance_debug s |},
   [publish_actuator_armed; orb_advertise_actuators control]).

(** [navigation_module] of [autonomous_sailing.c]: the NED position of
    the filtered fix, east as x and north as y. *)
Definition navigation_module (ns : navigation_state) (s : structs_topics_s)
    : local_position_race_s :=
  let '(north_cm, east_cm, down_cm) := geo_to_ned ns (gps_filtered s) in
  {| x_race_cm := east_cm; y_race_cm := north_cm |}.

(** [path_planning] of [autonomous_sailing.c] takes no argument and has
    an empty body. *)
Definition path_planning (st : thread_state) : thread_state := st.

Definition with_gps_filtered (s : structs_topics_s) (gps : vehicle_global_position_s)
    : structs_topics_s :=
  {| att := att s;
     boat_weather_station := boat_weather_station s;
     gps_filtered := gps;
     actuators_control := actuators_control s;
     boat_guidance_debug := boat_guidance_debug s |}.

(** The part of an iteration that handles the result of [poll], when it
    is not negative. *)
Definition handle_poll (it : iteration) (st : thread_state) : thread_state * list app_event :=
  if (poll_ret it =? 0)%Z then (st, [warnx " got no data within a second"])
  else
    let ev_raw := if gps_raw_pollin it then [update_cog (gps_raw_cog_rad it)] else [] in
    let st :=
      if gps_filtered_pollin it then
        let s := with_gps_filtered (strs st) (gps_filtered_copy it) in
        path_planning
          {| strs := s; params := params st;
             local_pos_r := navigation_module (navigation st) s;
             ref_act := ref_act st; guidance := guidance st;
             navigation := navigation st |}
      else st in
    let ev_wind :=
      if wind_sailing_pollin it then [update_twd (wind_sailing_angle_true it)] else [] in
    (st, ev_raw ++ ev_wind).

(** One iteration of the [while] loop. *)
Definition loop_body (it : iteration) (st : thread_state) : thread_state * list app_event :=
  if (poll_ret it <? 0)%Z then
    (* reported, and the rest of the iteration is skipped *)
    (st, [warn_poll_err (poll_ret it)])
  else
    let '(st, ev_poll) := handle_poll it st in
    let '(st, ev_param) := apply_param_update (param_check_update it) st in
    let '(ra, s, g, ev_guidance) :=
      guidance_module (ref_act st) (qgc (params st)) (strs st) (readings it)
        (guidance st) in
    ({| strs := s; params := params st; local_pos_r := local_pos_r st;
        ref_act := ra; guidance := g; navigation := navigation st |},
     ev_poll ++ ev_param ++ map guidance_event ev_guidance
       ++ [orb_publish_actuators (actuators_control s)]).

Fixpoint loop (its : list iteration) (st : thread_state) : thread_state * list app_event :=
  match its with
  | [] => (st, [])
  | it :: its =>
      let '(st, ev) := loop_body it st in
      let '(st, ev') := loop its st in
      (st, ev ++ ev')
  end.

(** What the system hands to the thread before the loop. *)
Record startup : Type := mk_startup {
  strs_at_start : structs_topics_s;   (* the local, not yet initialised *)
  subscriptions : Z * Z * Z;
  param_init : param_update;
  armed_pub_ok : bool;
  actuator_pub_ok : bool
}.

(** [as_daemon_thread_main]: [its] are the iterations made until the exit
    flag is seen; none is made when the actuators could not be
    initialised, because the thread then raises the flag itself. *)
Definition as_daemon_thread_main (g0 : guidance_state) (ns0 : navigation_state)
    (su : startup) (its : list iteration) : thread_state * list app_event :=
  let local_pos_r0 := {| x_race_cm := 0; y_race_cm := 0 |} in
  let ref_act0 := {| alpha_star := 30; should_tack := false |} in
  let '(sub_gps_raw, sub_gps_filtered, sub_wind_sailing) := subscriptions su in
  let '(_, ev_sub) := as_subscriber sub_gps_raw sub_gps_filtered sub_wind_sailing in
  let '(st, ev_param) :=
    apply_param_update (param_init su)
      {| strs := strs_at_start su; params := new_params (param_init su);
         local_pos_r := local_pos_r0; ref_act := ref_act0;
         guidance := g0; navigation := ns0 |} in
  let '(right_init, s, ev_act) :=
    actuators_init (armed_pub_ok su) (actuator_pub_ok su) (strs st) in
  let ev_init := if right_init then [] else [warnx " problem in initializing actuators"] in
  let st :=
    {| strs := s; params := params st; local_pos_r := local_pos_r st;
       ref_act := ref_act st; guidance := guidance st;
       navigation :=
         set_ref0 (lat0 (params st)) (lon0 (params st)) (alt0 (params st))
           (navigation st) |} in
  let '(st, ev_loop) := loop (if right_init then its else []) st in
  let control := vreplicate NUM_ACTUATOR_CONTROLS 0 in
  ({| strs :=
        {| att := att (strs st);
           boat_weather_station := boat_weather_station (strs st);
           gps_filtered := gps_filtered (strs st);
           actuators_control := control;
           boat_guidance_debug := boat_guidance_debug (strs st) |};
      params := params st; local_pos_r := local_pos_r st; ref_act := ref_act st;
      guidance := guidance st; navigation := navigation st |},
   [init_controller_data; warnx " starting"] ++ ev_sub ++ ev_param ++ ev_act ++ ev_init
     ++ ev_loop ++ [orb_publish_actuators control; warnx " exiting."]).

(** The actuator controls sent out, in order. *)
Fixpoint published (trace : list app_event) : list (vec Q NUM_ACTUATOR_CONTROLS) :=
  match trace with
  | [] => []
  | orb_advertise_actuators control :: trace => control :: published trace
  | orb_publish_actuators control :: trace => control :: published trace
  | _ :: trace => published trace
  end.


(** The calls made by the guidance module that a trace records. *)
Fixpoint guidance_events (trace : list app_event) : list event :=
  match trace with
  | [] => []
  | guidance_event e :: trace => e :: guidance_events trace
  | _ :: trace => guidance_events trace
  end.

(** The reference of the thread: [ref_act] as [as_daemon_thread_main]
    initialises it. *)
Definition fixed_reference : reference_actions_s :=
  {| alpha_star := 30; should_tack := false |}.




(** The iterations whose [poll] did not fail. *)
Definition served (its : list iteration) : list iteration :=
  List.filter (fun it => negb (poll_ret it <? 0)%Z) its.

End MainLoop.

End autonomous_sailing.

(** ** The parser of the weather station messages

    The helper functions of [parser_200WX.c] that scan the bytes read
    from the serial port, and [hdt_parser], which uses them.  The buffer
    is the list of the [buffer_length] bytes read, any byte value
    included; [buffer_length] is its length.  An index is an [int], here
    a [Z]; the C functions read [buffer] before its start when they are
    given a negative index, so the statements are about indices that are
    not negative. *)

Module parser_200WX.

(** if extract_until_coma doesn't find a ',' for SAFETY_COUNTER_EXTRACT,
    exit *)
Definition SAFETY_COUNTER_EXTRACT : nat := 15.

Definition MIN_BYTE_FOR_PARSING_SHORT_MSG : Z := 8.

Definition NUL : ascii := "000"%char.

(** [&buffer[i]]: the bytes from index [i] on. *)
Definition from (i : Z) (buffer : list ascii) : list ascii := drop (Z.to_nat i) buffer.

(** *** The C library *)

(** The characters of the C string held in an array: those before the
    first null character. *)
Fixpoint c_string (s : list ascii) : list ascii :=
  match s with
  | [] => []
  | c :: s => if (c =? NUL)%char then [] else c :: c_string s
  end.

Definition strlen (s : list ascii) : nat := length (c_string s).

(** What [strncpy(dest, src, n)] writes into [dest]: [n] characters, the
    characters of [src] up to its null character or to the [n]-th one,
    then null characters. *)
Definition strncpy (src : list ascii) (n : nat) : list ascii :=
  let copied := c_string (take n src) in
  copied ++ replicate (n - length copied) NUL.

Fixpoint chars_eqb (s1 s2 : list ascii) : bool :=
  match s1, s2 with
  | [], [] => true
  | c1 :: s1, c2 :: s2 => (c1 =? c2)%char && chars_eqb s1 s2
  | _, _ => false
  end.

(** [strcmp(s1, s2) == 0]: the two C strings are the same. *)
Definition strcmp_is_zero (s1 s2 : list ascii) : bool :=
  chars_eqb (c_string s1) (c_string s2).

(** [atof], which sees the C string only. *)
Class libc : Type := { atof : list ascii -> Q }.

Section Parser.

Context `{libc}.

(** *** [find_string] *)

(** The [for] loop of [find_string] with [n] iterations left. *)
Fixpoint find_string_loop (n : nat) (i : Z) (buffer str : list ascii) : Z :=
  match n with
  | O => (-1)%Z   (* str not found in buffer *)
  | S n =>
      let str_len := strlen str in
      (* strncpy(temp_str, &buffer[i], str_len); temp_str[str_len] = 0 *)
      let temp_str := strncpy (from i buffer) str_len ++ [NUL] in
      if strcmp_is_zero temp_str str then i
      else find_string_loop n (i + 1) buffer str
  end.

Definition find_string (start_index : Z) (buffer str : list ascii) : Z :=
  let buffer_length := Z.of_nat (length buffer) in
  let str_len := Z.of_nat (strlen str) in
  let stop_index := (buffer_length - str_len + 1)%Z in
  find_string_loop (Z.to_nat (stop_index - start_index)) start_index buffer str.

(** *** [jump_to_next_coma] *)

(** [while(i < buffer_length && buffer[i] != ',') i++], on the bytes from
    [i] on: the index at which the loop stops. *)
Fixpoint next_coma (rest : list ascii) (i : Z) : Z :=
  match rest with
  | [] => i     (* i = buffer_length *)
  | c :: rest => if (c =? ",")%char then i else next_coma rest (i + 1)
  end.

Definition jump_to_next_coma (start_index : Z) (buffer : list ascii) : Z :=
  let buffer_length := Z.of_nat (length buffer) in
  let i := next_coma (from start_index buffer) start_index in
  if (buffer_length <=? i)%Z then (-1)%Z else i.

(** *** [f_extract_until_coma] and [d_extract_until_coma] *)

(** The [while] loop of the two functions, on the bytes from [i] on:
    [None] when the safety counter stops it, else the index reached and
    the characters copied into [temp_char]. *)
Fixpoint extract_loop (rest : list ascii) (i : Z) (counter : nat) (temp_char : list ascii)
    : option (Z * list ascii) :=
  match rest with
  | [] => Some (i, temp_char)
  | c :: rest =>
      if (c =? ",")%char then Some (i, temp_char)
      else
        let temp_char := temp_char ++ [c] in
        let i := (i + 1)%Z in
        let counter := S counter in
        if (SAFETY_COUNTER_EXTRACT <=? counter)%nat then None
        else extract_loop rest i counter temp_char
  end.

(** The result, the index left in [*index_pointer] and the value left in
    [*ret_val_pointer]. *)
Definition f_extract_until_coma (index : Z) (buffer : list ascii) : bool * Z * Q :=
  let buffer_length := Z.of_nat (length buffer) in
  match extract_loop (from index buffer) index 0 [] with
  | None => (false, index, 0)
  | Some (i, temp_char) =>
      if (i =? index)%Z || (buffer_length <=? i)%Z then
        (false, index, 0)   (* not found valid data *)
      else
        (* null terminate string *)
        (true, i, atof (c_string (temp_char ++ [NUL])))
  end.

(** The same body, on a [double]. *)
Definition d_extract_until_coma (index : Z) (buffer : list ascii) : bool * Z * Q :=
  let buffer_length := Z.of_nat (length buffer) in
  match extract_loop (from index buffer) index 0 [] with
  | None => (false, index, 0)
  | Some (i, temp_char) =>
      if (i =? index)%Z || (buffer_length <=? i)%Z then (false, index, 0)
      else (true, i, atof (c_string (temp_char ++ [NUL])))
  end.

(** *** [nmea_ndeg2degree] *)

(** Convert NDEG (NMEA degree: [degree][min].[sec/60]) to fractional
    degree. *)
Definition nmea_ndeg2degree (val : Q) : Q :=
  let deg := inject_Z (float_to_int32 (val / 100)) in
  deg + (val - deg * 100) / 60.

(** *** [hdt_parser] *)

Definition HCHDT : list ascii := list_ascii_of_string "HCHDT".

(** The [for] loop of [hdt_parser] from index [i], on the yaw held by the
    attitude structure: the yaw it leaves, [None] when [fuel] iterations
    were not enough. *)
Fixpoint hdt_parser_loop (fuel : nat) (i : Z) (buffer : list ascii) (yaw : Q) : option Q :=
  let buffer_length := Z.of_nat (length buffer) in
  if (MIN_BYTE_FOR_PARSING_SHORT_MSG <? buffer_length - i)%Z then
    match fuel with
    | O => None
    | S fuel =>
        let i := find_string i buffer HCHDT in
        if (i =? -1)%Z then Some yaw   (* no message found *)
        else
          let i := (i + 6)%Z in   (* position to byte1 *)
          let '(found, i, heading) := f_extract_until_coma i buffer in
          let yaw := if found then heading else yaw in
          hdt_parser_loop fuel (i + 1) buffer yaw
    end
  else Some yaw.

(** Every iteration moves the index forward, so the loop makes fewer
    iterations than the buffer has bytes. *)
Definition hdt_parser (buffer : list ascii) (yaw : Q) : option Q :=
  hdt_parser_loop (length buffer) 0 buffer yaw.

(** *** Vocabulary of the statements *)

(** [str] is in the buffer at index [i]. *)
Definition occurs_at (str buffer : list ascii) (i : Z) : Prop :=
  (0 <= i <= Z.of_nat (length buffer))%Z /\
  take (length str) (from i buffer) = str.

(** The byte at index [i] of the buffer, when there is one. *)
Definition byte_at (buffer : list ascii) (i : Z) : option ascii :=
  if (i <? 0)%Z then None else buffer !! Z.to_nat i.

(** The number of bytes before the first comma, or before the end. *)
Fixpoint field_length (rest : list ascii) : nat :=
  match rest with
  | [] => O
  | c :: rest => if (c =? ",")%char then O else S (field_length rest)
  end.

(** What [hdt_parser] can leave as yaw: the yaw it had before the call,
    or the value of a field read 6 bytes after a header. *)
Definition parsed_heading (buffer : list ascii) (yaw0 y : Q) : Prop :=
  y = yaw0 \/
  exists k j, occurs_at HCHDT buffer k /\
    f_extract_until_coma (k + 6) buffer = (true, j, y).

End Parser.

End parser_200WX.

(** ** More values to run the model on *)

(** A tack to the left as the module stores it: started on the heeled
    readings, with the rudder command left at 0; and readings after the
    boat has turned left by 1.5 rad and heeled to the other side. *)
Definition bench_tack_left_unrecorded : tack_data.t :=
  {| tack_data.boat_is_tacking := true;
     tack_data.tack_rudder_command := 0;
     tack_data.roll_before_tack := (0.25, 0.5);
     tack_data.yaw_before_tack := (-1.5, -1.25);
     tack_data.roll_stop_tack := 2;
     tack_data.yaw_stop_tack := 1.04 |}.

Definition bench_topics_turned_left : structs_topics_s :=
  with_attitude bench_topics (-0.5) (-3) (-0.5) (-2.75).

(** The boat heading -170 degrees on the estimator, heeled. *)
Definition bench_topics_heading_south : structs_topics_s :=
  with_attitude bench_topics 0.25 (deg (-170)) 0.5 0.

(** Two calls of the PI controller. *)
Definition bench_pi_calls : list (Q * Q) := [(1, 0.5); (0, 0.25)].

(** A cycle with the boat upright and a cycle with the boat heeled on
    the other side and turned. *)
Definition bench_cycle_upright : cycle_input :=
  {| cycle_param_qgc := bench_param_qgc;
     cycle_att := {| roll := 0; yaw := 1 |};
     cycle_boat_weather_station := {| roll_r := 0; heading_tn := 1 |};
     cycle_gps_filtered := bench_gps;
     cycle_controller_data := bench_controller_data |}.

Definition bench_cycle_heeled : cycle_input :=
  {| cycle_param_qgc := bench_param_qgc;
     cycle_att := {| roll := -1; yaw := 2.5 |};
     cycle_boat_weather_station := {| roll_r := -1; heading_tn := 2.5 |};
     cycle_gps_filtered := bench_gps;
     cycle_controller_data := bench_controller_data |}.





(** The buffers that [retrieve_data] holds as simulated data: a heading
    message with the null character that ends the array, and the same
    after other bytes. *)
Definition bench_buf_hdt : list ascii :=
  list_ascii_of_string "HCHDT,025.3,T,*" ++ [parser_200WX.NUL].

Definition bench_buf_long : list ascii :=
  list_ascii_of_string "$$$HCHDT,025.3,T,*" ++ [parser_200WX.NUL].

(** A stand-in for [atof] on unsigned decimal numbers: the digits before
    and after the point, read until the first other character. *)
Definition digit_value (c : ascii) : option Z :=
  let n := Z.of_nat (nat_of_ascii c) in
  if ((48 <=? n) && (n <=? 57))%Z then Some (n - 48)%Z else None.

Fixpoint bench_atof_digits (s : list ascii) (fraction : bool) (value scale : Z) : Q :=
  match s with
  | [] => inject_Z value / inject_Z scale
  | c :: s =>
      match digit_value c with
      | Some d =>
          bench_atof_digits s fraction (10 * value + d)
            (if fraction then 10 * scale else scale)
      | None =>
          if (c =? ".")%char && negb fraction then bench_atof_digits s true value scale
          else inject_Z value / inject_Z scale
      end
  end.

Definition bench_libc : parser_200WX.libc :=
  {| parser_200WX.atof := fun s => Qred (bench_atof_digits s false 0 1) |}.

(** * Properties *)

(** ** Comparisons and conversions *)

Lemma Qlt_bool_iff (x y : Q) : (x <? y) = true <-> x < y.
Proof.
  unfold Qlt_bool. rewrite negb_true_iff, <- not_true_iff_false, Qle_bool_iff.
  split; [apply Qnot_le_lt | apply Qlt_not_le].
Qed.

Lemma Qlt_bool_false_iff (x y : Q) : (x <? y) = false <-> y <= x.
Proof.
  unfold Qlt_bool. rewrite negb_false_iff. apply Qle_bool_iff.
Qed.

Lemma Qle_bool_false_iff (x y : Q) : (x <=? y) = false <-> y < x.
Proof.
  rewrite <- not_true_iff_false, Qle_bool_iff.
  split; [apply Qnot_le_lt | apply Qlt_not_le].
Qed.

(** Replaces every boolean comparison of the context and of the goal by
    the order relation it decides. *)
Ltac order_of_bool :=
  repeat match goal with
  | E : Qlt_bool _ _ = true |- _ => apply Qlt_bool_iff in E
  | E : Qlt_bool _ _ = false |- _ => apply Qlt_bool_false_iff in E
  | E : Qle_bool _ _ = true |- _ => apply Qle_bool_iff in E
  | E : Qle_bool _ _ = false |- _ => apply Qle_bool_false_iff in E
  | |- Qlt_bool _ _ = true => apply Qlt_bool_iff
  | |- Qlt_bool _ _ = false => apply Qlt_bool_false_iff
  | |- Qle_bool _ _ = true => apply Qle_bool_iff
  | |- Qle_bool _ _ = false => apply Qle_bool_false_iff
  end.

(** Splits on the outermost comparison that guards a conditional. *)
Ltac split_if :=
  match goal with
  | |- context [if Qlt_bool ?a ?b then _ else _] =>
      let E := fresh "E" in destruct (Qlt_bool a b) eqn:E
  | |- context [if Qle_bool ?a ?b then _ else _] =>
      let E := fresh "E" in destruct (Qle_bool a b) eqn:E
  end.

(** The absolute value as the source computes it. *)
Lemma sign_test_Qabs (x : Q) :
  (if x >? 0 then x else - x) = Qabs x.
Proof.
  destruct x as [[|n|n] d]; reflexivity.
Qed.

(** Truncation toward zero is the floor of a non-negative value and the
    ceiling of a non-positive one. *)
Lemma Qtruncate_nonneg (q : Q) : 0 <= q -> Qtruncate q = Qfloor q.
Proof.
  destruct q as [n d]. unfold Qle, Qtruncate, Qfloor. cbn. intros Hn.
  apply Z.quot_div_nonneg; lia.
Qed.

Lemma Qtruncate_nonpos (q : Q) : q <= 0 -> Qtruncate q = Qceiling q.
Proof.
  destruct q as [n d]. unfold Qle, Qtruncate, Qceiling, Qfloor. cbn. intros Hn.
  rewrite <- (Z.opp_involutive n) at 1.
  rewrite Z.quot_opp_l by lia. f_equal.
  apply Z.quot_div_nonneg; lia.
Qed.

Lemma Qtruncate_error (q : Q) : Qabs (q - inject_Z (Qtruncate q)) < 1.
Proof.
  apply Qabs_Qlt_condition.
  destruct (Qlt_le_dec q 0) as [Hneg|Hpos].
  - rewrite Qtruncate_nonpos by now apply Qlt_le_weak.
    pose proof (Qle_ceiling q) as Hc. pose proof (Qceiling_lt q) as Hl.
    unfold Z.sub in Hl. rewrite inject_Z_plus, inject_Z_opp in Hl.
    change (inject_Z 1) with 1 in Hl.
    split; lra.
  - rewrite Qtruncate_nonneg by assumption.
    pose proof (Qfloor_le q) as Hf. pose proof (Qlt_floor q) as Hl.
    rewrite inject_Z_plus in Hl. change (inject_Z 1) with 1 in Hl.
    split; lra.
Qed.

Lemma float_to_int32_in_range (q : Q) :
  (INT32_MIN <= Qtruncate q <= INT32_MAX)%Z -> float_to_int32 q = Qtruncate q.
Proof.
  unfold float_to_int32. lia.
Qed.

Example float_to_int32_values :
  float_to_int32 3.7 = 3%Z /\ float_to_int32 (-3.7) = (-3)%Z /\
  float_to_int32 10000000000 = INT32_MAX /\
  float_to_int32 (-10000000000) = INT32_MIN.
Proof.
  repeat split.
Qed.

Example int32_wrap_values :
  int32_wrap 5 = 5%Z /\ int32_wrap (-5) = (-5)%Z /\
  int32_wrap (INT32_MAX + 1) = INT32_MIN /\
  int32_wrap (INT32_MIN - 1) = INT32_MAX.
Proof.
  repeat split.
Qed.

Section GuidanceProperties.

Context `{settings}.

(** ** Saturations *)



(** ** What a cycle publishes *)

Lemma actuators_control_rudder (v : vec Q NUM_ACTUATOR_CONTROLS) (r s : Q) :
  vinsert (3%fin : fin NUM_ACTUATOR_CONTROLS) s
    (vinsert (0%fin : fin NUM_ACTUATOR_CONTROLS) r v)
  !!! (0%fin : fin NUM_ACTUATOR_CONTROLS) = r.
Proof.
  rewrite vlookup_insert_ne by discriminate. apply vlookup_insert.
Qed.

Lemma actuators_control_sail (v : vec Q NUM_ACTUATOR_CONTROLS) (r s : Q) :
  vinsert (3%fin : fin NUM_ACTUATOR_CONTROLS) s
    (vinsert (0%fin : fin NUM_ACTUATOR_CONTROLS) r v)
  !!! (3%fin : fin NUM_ACTUATOR_CONTROLS) = s.
Proof.
  apply vlookup_insert.
Qed.


(** *** What the final saturations let through

    The exact model and the model with infinities and NaN give the same
    sail command where no divisor is zero and the sector fits the 32-bit
    variable. *)

Lemma ieee_saturations_exact (x : Q) :
  ieee.rudder_saturation (ieee.finite x) = ieee.finite (rudder_saturation x) /\
  ieee.sail_saturation (ieee.finite x) = ieee.finite (sail_saturation x).
Proof.
  unfold ieee.rudder_saturation, ieee.sail_saturation, rudder_saturation,
    sail_saturation, ieee.lt.
  cbn [ieee.gt ieee.opp]. split.
  - destruct (RUDDER_SATURATION <? x); [reflexivity|].
    destruct (x <? - RUDDER_SATURATION); reflexivity.
  - destruct (x <? 0); [reflexivity|].
    destruct (SAIL_SATURATION <? x); reflexivity.
Qed.

Lemma Qeq_bool_false (x y : Q) : ~ x == y -> Qeq_bool x y = false.
Proof.
  intros Hn. destruct (Qeq_bool x y) eqn:E; [|reflexivity].
  apply Qeq_bool_iff in E. contradiction.
Qed.

Lemma ieee_set_sail_positions_exact (num : Z) :
  num <> 0%Z ->
  ieee.set_sail_positions num = ieee_of_exact (set_sail_positions num).
Proof.
  intros Hn. unfold ieee.set_sail_positions, ieee_of_exact, set_sail_positions,
    ieee.of_int32.
  cbn [ieee.div sail_controller_data.position_quantum
       sail_controller_data.command_quantum].
  rewrite Qeq_bool_false; [reflexivity|].
  change 0 with (inject_Z 0). rewrite inject_Z_injective. exact Hn.
Qed.

Lemma ieee_sail_controller_exact (cd : controller_data) (sd : sail_controller_data.t) :
  ~ sail_controller_data.position_quantum sd == 0 ->
  (INT32_MIN
   <= Qtruncate (Qabs (get_app_wind cd) / sail_controller_data.position_quantum sd)
   <= INT32_MAX)%Z ->
  ieee.sail_controller (ieee.finite (get_app_wind cd)) (ieee_of_exact sd)
  = Some (ieee.finite (sail_controller cd sd)).
Proof.
  intros Hq Hfit. unfold ieee.sail_controller, sail_controller, ieee_of_exact.
  cbn [ieee.gt ieee.opp ieee.position_quantum ieee.command_quantum].
  rewrite sign_test_Qabs.
  assert (Ha : (if 0 <? get_app_wind cd then ieee.finite (get_app_wind cd)
                else ieee.finite (- get_app_wind cd))
               = ieee.finite (Qabs (get_app_wind cd))).
  { rewrite <- sign_test_Qabs. now destruct (0 <? get_app_wind cd). }
  rewrite Ha. cbn [ieee.div]. rewrite (Qeq_bool_false _ _ Hq). cbn [ieee.to_int32].
  destruct Hfit as [Hlo Hhi].
  apply Z.leb_le in Hlo as Hlo'. apply Z.leb_le in Hhi as Hhi'.
  rewrite Hlo', Hhi'. cbn [andb ieee.of_int32 ieee.mul ieee.sub].
  unfold float_to_int32.
  set (sector := Qtruncate _) in *.
  replace (Z.max INT32_MIN (Z.min INT32_MAX sector)) with sector by lia.
  reflexivity.
Qed.

(** Where the angle quantum is not zero and the sector fits, the sail
    command of the tracking path is the same in both models: the one
    that [tracking_commands] gives, saturated. *)
Lemma ieee_tracking_sail_exact ref_act param_qgc cd g :
  ~ sail_controller_data.position_quantum (sail_controller_data g) == 0 ->
  (INT32_MIN
   <= Qtruncate (Qabs (get_app_wind cd)
                 / sail_controller_data.position_quantum (sail_controller_data g))
   <= INT32_MAX)%Z ->
  ieee.tracking_sail (ieee.finite (sail_servo param_qgc)) (ieee.finite (get_app_wind cd))
    (ieee_of_exact (sail_controller_data g))
  = Some (ieee.finite (sail_saturation (snd (tracking_commands ref_act param_qgc cd g)))).
Proof.
  intros Hq Hfit. unfold ieee.tracking_sail, tracking_commands, ieee.lt.
  cbn [snd ieee.gt].
  destruct (sail_servo param_qgc <? 0).
  - rewrite ieee_sail_controller_exact by assumption. cbn [option_map].
    now rewrite (proj2 (ieee_saturations_exact _)).
  - cbn [option_map]. now rewrite (proj2 (ieee_saturations_exact _)).
Qed.

(** C2.  The final saturations of [guidance_module] do not keep every
    command within the limits.  After [set_sail_positions(0)] both
    quanta are quotients by zero; for every finite apparent wind angle
    [sail_controller] then returns [SAIL_SATURATION - 0 * inf], a NaN, and
    a cycle without a tack and with a negative [sail_servo] writes it at
    index 3 of the actuator controls, because a NaN passes both
    comparisons of the clamp.  The saturation of the rudder lets a NaN
    through in the same way. *)
Theorem sail_command_nan_after_zero_positions (sail_servo mean_apparent : Q) :
  sail_servo < 0 ->
  ieee.sail_controller (ieee.finite mean_apparent) (ieee.set_sail_positions 0)
  = Some ieee.nan /\
  ieee.tracking_sail (ieee.finite sail_servo) (ieee.finite mean_apparent)
    (ieee.set_sail_positions 0)
  = Some ieee.nan /\
  ieee.sail_saturation ieee.nan = ieee.nan /\
  ieee.rudder_saturation ieee.nan = ieee.nan.
Proof.
  intros Hs.
  assert (Hc : ieee.sail_controller (ieee.finite mean_apparent)
                 (ieee.set_sail_positions 0) = Some ieee.nan).
  { unfold ieee.sail_controller, ieee.set_sail_positions, ieee.of_int32.
    cbn [ieee.position_quantum ieee.command_quantum ieee.gt ieee.opp].
    change (ieee.div (ieee.finite M_PI_F) (ieee.finite (inject_Z 0))) with ieee.pinf.
    assert (Hz : ieee.div
                   (if 0 <? mean_apparent then ieee.finite mean_apparent
                    else ieee.finite (- mean_apparent)) ieee.pinf
                 = ieee.finite 0)
      by now destruct (0 <? mean_apparent).
    rewrite Hz. change (ieee.to_int32 (ieee.finite 0)) with (Some 0%Z).
    cbn [ieee.div]. change (Qeq_bool (inject_Z 0) 0) with true. cbn match.
    unfold ieee.inf_of_sign.
    destruct (Qeq_bool SAIL_SATURATION 0); [reflexivity|].
    destruct (0 <? SAIL_SATURATION); reflexivity. }
  split; [exact Hc|]. split; [|split; reflexivity].
  unfold ieee.tracking_sail, ieee.lt. cbn [ieee.gt].
  apply Qlt_bool_iff in Hs. rewrite Hs, Hc. reflexivity.
Qed.

(** ** The tack state machine inside a cycle *)

(** A cycle entered while tacking, on which the tack is not completed:
    the statics and the reference action are unchanged and the helmsman
    commands go through the final saturation. *)
Lemma guidance_module_keeps_tacking ref_act param_qgc strs cd g :
  should_tack ref_act = true ->
  tack_data.boat_is_tacking (tack_data g) = true ->
  is_tack_completed strs (tack_data g) = false ->
  let out := guidance_module ref_act param_qgc strs cd g in
  published_rudder out = rudder_saturation (fst (helmsman_commands ref_act cd)) /\
  published_sail out = sail_saturation (snd (helmsman_commands ref_act cd)) /\
  out.1.1.1 = ref_act /\ out.1.2 = g /\ out.2 = [].
Proof.
  intros Hst Htk Hnc.
  unfold guidance_module, tack_action, published_rudder, published_sail.
  rewrite Hst, Htk, Hnc. fold (helmsman_commands ref_act cd).
  destruct (helmsman_commands ref_act cd) as [r s].
  rewrite Hst. cbn [negb fst snd actuators_control].
  rewrite actuators_control_rudder, actuators_control_sail.
  destruct g; repeat split.
Qed.

(** A cycle entered while tacking, on which the tack is completed:
    [tack_action] clears [should_tack], so the tracking block of the same
    cycle runs and overwrites the helmsman commands. *)
Lemma guidance_module_completes_tack ref_act param_qgc strs cd g :
  should_tack ref_act = true ->
  tack_data.boat_is_tacking (tack_data g) = true ->
  is_tack_completed strs (tack_data g) = true ->
  let out := guidance_module ref_act param_qgc strs cd g in
  published_rudder out
    = rudder_saturation (fst (tracking_commands ref_act param_qgc cd g)) /\
  published_sail out
    = sail_saturation (snd (tracking_commands ref_act param_qgc cd g)) /\
  should_tack out.1.1.1 = false /\
  tack_data.boat_is_tacking (tack_data out.1.2) = false /\
  out.2 = [notify_tack_completed; send_log_info "Tack completed."].
Proof.
  intros Hst Htk Hc.
  unfold guidance_module, tack_action, tracking_commands,
    published_rudder, published_sail.
  rewrite Hst, Htk, Hc. cbn [should_tack alpha_star].
  destruct (if - alpha_star ref_act <? 0 then _ else _) as [r s].
  cbn [negb fst snd should_tack alpha_star].
  destruct (pi_controller _ _ _) as [action pd].
  cbn [fst snd actuators_control tack_data tack_data.boat_is_tacking should_tack].
  rewrite actuators_control_rudder, actuators_control_sail.
  repeat split.
Qed.

(** C1, as amended.  On a cycle entered with [should_tack] set while the
    boat is tacking, the published commands are the saturated helmsman
    commands when the completion check fails; when it succeeds,
    [should_tack] and [boat_is_tacking] are cleared, the collaborators are
    notified, and the published commands are the saturated PI rudder and
    sail trim (or manual sail) commands computed in that same cycle. *)
Theorem tacking_cycle_published ref_act param_qgc strs cd g :
  should_tack ref_act = true ->
  tack_data.boat_is_tacking (tack_data g) = true ->
  let out := guidance_module ref_act param_qgc strs cd g in
  (is_tack_completed strs (tack_data g) = false ->
     helmsman_published ref_act param_qgc strs cd g /\
     should_tack out.1.1.1 = true /\
     tack_data.boat_is_tacking (tack_data out.1.2) = true /\
     out.2 = []) /\
  (is_tack_completed strs (tack_data g) = true ->
     tracking_published ref_act param_qgc strs cd g /\
     should_tack out.1.1.1 = false /\
     tack_data.boat_is_tacking (tack_data out.1.2) = false /\
     out.2 = [notify_tack_completed; send_log_info "Tack completed."]).
Proof.
  intros Hst Htk out. split; intros Hc.
  - destruct (guidance_module_keeps_tacking ref_act param_qgc strs cd g Hst Htk Hc)
      as (Er & Es & Era & Eg & Eev).
    fold out in Er, Es, Era, Eg, Eev.
    unfold helmsman_published. fold out.
    rewrite Er, Es, Era, Eg, Eev. repeat split; auto; reflexivity.
  - destruct (guidance_module_completes_tack ref_act param_qgc strs cd g Hst Htk Hc)
      as (Er & Es & Era & Eg & Eev).
    fold out in Er, Es, Era, Eg, Eev.
    unfold tracking_published. fold out.
    rewrite Er, Es. repeat split; auto; reflexivity.
Qed.

(** ** Stop conditions of a tack *)

Lemma deg_linear (d : Q) :
  deg d == d * (314159265358979323846 # 18000000000000000000000).
Proof.
  unfold deg, M_PI_F. field.
Qed.

(** C6.  For a stop ratio that is not zero, the roll condition of source
    [i] holds exactly when the roll before the tack was positive and the
    roll is now at most [- roll_before_tack[i] / roll_stop_tack], or was
    negative and the roll is now at least that value; when the roll
    before the tack was zero the condition holds for no roll, whatever
    the ratio. *)
Theorem roll_stop_tack_iff td i roll :
  (~ tack_data.roll_stop_tack td == 0 ->
   (roll_stop_tack roll i td = true <-> roll_stop_tack_spec td i roll)) /\
  (nth2 (tack_data.roll_before_tack td) i == 0 ->
   forall angle, roll_stop_tack angle i td = false).
Proof.
  unfold roll_stop_tack, roll_stop_tack_spec. cbv zeta.
  set (before := nth2 (tack_data.roll_before_tack td) i).
  set (bound := - before / tack_data.roll_stop_tack td).
  split.
  - intros _. repeat split_if; order_of_bool; rewrite ?Qle_bool_iff; split.
    all: try discriminate.
    all: try (intros [[Hp Hb]|[Hn Hb]]; first [lra | exfalso; lra]).
    all: intros Hb; first [left; split; lra | right; split; lra].
  - intros Hz angle. repeat split_if; order_of_bool; try reflexivity; lra.
Qed.

Lemma yaw_stop_tack_left td i y :
  tack_data.tack_rudder_command td > 0 ->
  yaw_stop_tack y i td
  = ((if nth2 (tack_data.yaw_before_tack td) i <? 0
      then (if y <? 0 then y else -2 * M_PI_F + y) else y)
     - nth2 (tack_data.yaw_before_tack td) i <=? - tack_data.yaw_stop_tack td).
Proof.
  intros Hc. unfold yaw_stop_tack.
  apply Qlt_bool_iff in Hc. now rewrite Hc.
Qed.

Lemma yaw_stop_tack_not_left td i y :
  ~ tack_data.tack_rudder_command td > 0 ->
  yaw_stop_tack y i td = yaw_stop_tack_right y i td.
Proof.
  intros Hc. unfold yaw_stop_tack, yaw_stop_tack_right.
  destruct (0 <? tack_data.tack_rudder_command td) eqn:E; [|reflexivity].
  apply Qlt_bool_iff in E. contradiction.
Qed.

(** ** Start of a tack and the stored rudder command *)

(** What [tack_action] stores when the tack starts: the flag and the four
    angles.  The stored rudder command is left as it was. *)
Lemma tack_action_starts ref_act strs cd td :
  tack_data.boat_is_tacking td = false ->
  let '(ref_act', td', _, events) := tack_action ref_act strs cd td in
  ref_act' = ref_act /\ events = [] /\
  tack_data.boat_is_tacking td' = true /\
  tack_data.roll_before_tack td'
    = (roll (att strs), roll_r (boat_weather_station strs)) /\
  tack_data.yaw_before_tack td'
    = (yaw (att strs), heading_tn (boat_weather_station strs)) /\
  tack_data.tack_rudder_command td' = tack_data.tack_rudder_command td /\
  tack_data.roll_stop_tack td' = tack_data.roll_stop_tack td /\
  tack_data.yaw_stop_tack td' = tack_data.yaw_stop_tack td.
Proof.
  intros Hn. unfold tack_action. rewrite Hn. cbn. repeat split.
Qed.

Lemma tack_action_rudder_command ref_act strs cd td :
  let '(_, td', _, _) := tack_action ref_act strs cd td in
  tack_data.tack_rudder_command td' = tack_data.tack_rudder_command td.
Proof.
  unfold tack_action.
  destruct (tack_data.boat_is_tacking td);
    [destruct (is_tack_completed strs td)|]; reflexivity.
Qed.

Lemma guidance_module_rudder_command ref_act param_qgc strs cd g :
  let '(_, _, g', _) := guidance_module ref_act param_qgc strs cd g in
  tack_data.tack_rudder_command (tack_data g')
  = tack_data.tack_rudder_command (tack_data g).
Proof.
  unfold guidance_module.
  destruct (should_tack ref_act).
  - pose proof (tack_action_rudder_command ref_act strs cd (tack_data g)) as Ht.
    destruct (tack_action ref_act strs cd (tack_data g)) as [[[ra td] [r s]] ev].
    destruct (if negb (should_tack ra) then _ else _) as [[r' s'] pd].
    exact Ht.
  - destruct (if negb (should_tack ref_act) then _ else _) as [[r' s'] pd].
    reflexivity.
Qed.

(** The reachable states are the states after a finite sequence of calls
    made on the initial statics. *)
Lemma reachable_run_calls g cs : reachable g -> reachable (run_calls g cs).
Proof.
  revert g. induction cs as [|c cs IH]; intros g Hr; cbn.
  - exact Hr.
  - apply IH. now apply reachable_step.
Qed.

Lemma reachable_is_run g : reachable g -> exists cs, g = run_calls guidance_init cs.
Proof.
  induction 1 as [|g c Hr [cs ->]].
  - now exists [].
  - exists (cs ++ [c]). unfold run_calls. now rewrite fold_left_app.
Qed.

(** No function of the module assigns the stored rudder command. *)
Lemma guidance_step_rudder_command g c :
  tack_data.tack_rudder_command (tack_data (guidance_step g c))
  = tack_data.tack_rudder_command (tack_data g).
Proof.
  destruct c as [rs ys|p i cp ci uc kaw|num|ref meas|ra strs cd|ra pq strs cd];
    cbn [guidance_step]; try reflexivity.
  - pose proof (tack_action_rudder_command ra strs cd (tack_data g)) as Ht.
    destruct (tack_action ra strs cd (tack_data g)) as [[[ra' td] cmds] ev].
    exact Ht.
  - pose proof (guidance_module_rudder_command ra pq strs cd g) as Hg.
    destruct (guidance_module ra pq strs cd g) as [[[ra' strs'] g'] ev].
    exact Hg.
Qed.

(** C5.  In every state that the functions of the module can reach from
    the initial one, the stored tack rudder command is still its initial
    value 0, and therefore [yaw_stop_tack] evaluates its branch for a
    boat steering on the right, whatever the direction of the tack. *)
Theorem tack_rudder_command_stays_zero g :
  reachable g ->
  tack_data.tack_rudder_command (tack_data g) = 0 /\
  forall angle index_yaw,
    yaw_stop_tack angle index_yaw (tack_data g)
    = yaw_stop_tack_right angle index_yaw (tack_data g).
Proof.
  intros Hr.
  assert (Hz : tack_data.tack_rudder_command (tack_data g) = 0).
  { induction Hr as [|g c Hr IH].
    - reflexivity.
    - now rewrite guidance_step_rudder_command. }
  split; [exact Hz|].
  intros angle index_yaw. apply yaw_stop_tack_not_left.
  rewrite Hz. apply Qlt_irrefl.
Qed.

(** C3.  The sweep to the left through the +/-180 degrees boundary.  In
    every state the module reaches, a tack stored from a yaw of -170
    degrees with a stop value of 60 degrees is seen as completed by the
    yaw condition exactly at the yaws of -110 degrees and more: the
    stored rudder command is 0, so the branch for a boat steering on the
    right is evaluated and no yaw is extended.  A boat turning left from
    -170 degrees therefore triggers the condition at 179 degrees, right
    after the boundary, where the swept angle is -11 degrees and the
    rule for a turn to the left does not hold. *)
Theorem yaw_stop_tack_left_sweep g i :
  reachable g ->
  nth2 (tack_data.yaw_before_tack (tack_data g)) i == deg (-170) ->
  tack_data.yaw_stop_tack (tack_data g) == deg 60 ->
  (forall y, yaw_stop_tack y i (tack_data g) = true <-> deg (-110) <= y) /\
  yaw_stop_tack (deg 179) i (tack_data g) = true /\
  ~ extended_yaw_left_spec (deg 179) - deg (-170) <= - deg 60.
Proof.
  intros Hr.
  assert (Hz : tack_data.tack_rudder_command (tack_data g) = 0).
  { induction Hr as [|g c Hr IH].
    - reflexivity.
    - now rewrite guidance_step_rudder_command. }
  intros Hb Ht.
  assert (Hall : forall y, yaw_stop_tack y i (tack_data g) = true <-> deg (-110) <= y).
  { intros y. rewrite yaw_stop_tack_not_left by (rewrite Hz; apply Qlt_irrefl).
    unfold yaw_stop_tack_right. rewrite Qle_bool_iff.
    rewrite deg_linear in Hb, Ht |- *. unfold M_PI_F.
    repeat split_if; order_of_bool; split; intros Hs; lra. }
  split; [exact Hall|]. split.
  - apply Hall. rewrite !deg_linear. lra.
  - unfold extended_yaw_left_spec.
    assert (Hy : (deg 179 <? 0) = false) by (order_of_bool; rewrite deg_linear; lra).
    rewrite Hy, !deg_linear. unfold M_PI_F. lra.
Qed.

(** ** PI controller *)


(** ** Helmsman control law *)

(** C8.  The starboard-to-port helmsman law is the port-to-starboard law
    at the opposite angle, with the same sail command and the opposite
    rudder command. *)
Theorem helmsman_tack_s2p_symmetry alpha :
  helmsman_tack_s2p alpha
  = (- fst (helmsman_tack_p2s (- alpha)), snd (helmsman_tack_p2s (- alpha))).
Proof.
  unfold helmsman_tack_s2p.
  now destruct (helmsman_tack_p2s (- alpha)) as [rudder_port sails].
Qed.

(** ** Sail controller *)

Lemma position_quantum_pos (n : Z) : (0 < n)%Z -> 0 < M_PI_F / inject_Z n.
Proof.
  intros Hn. apply Qlt_shift_div_l.
  - change 0 with (inject_Z 0). now rewrite <- Zlt_Qlt.
  - reflexivity.
Qed.

Lemma sector_nonneg (a : Q) (n : Z) :
  (0 < n)%Z -> 0 <= Qabs a / (M_PI_F / inject_Z n).
Proof.
  intros Hn. apply Qle_shift_div_l.
  - now apply position_quantum_pos.
  - rewrite Qmult_0_l. apply Qabs_nonneg.
Qed.

(** C10.  After [set_sail_positions n] with a positive number of
    positions, and for a mean apparent wind angle whose sector fits the
    32-bit sector variable, [sail_controller] returns
    [SAIL_SATURATION - floor(|a| / angle_quantum) * command_quantum] with
    [angle_quantum = pi / n] and [command_quantum = SAIL_SATURATION / n].
    With 4 positions, an angle of exactly [pi / 4] is in sector 1 and the
    command is [SAIL_SATURATION - command_quantum]. *)
Theorem sail_controller_quantized (n : Z) (cd : controller_data) :
  (0 < n)%Z ->
  (Qfloor (Qabs (get_app_wind cd) / (M_PI_F / inject_Z n)) <= INT32_MAX)%Z ->
  sail_controller cd (set_sail_positions n) == sail_trim_spec n (get_app_wind cd) /\
  (n = 4%Z -> get_app_wind cd == M_PI_F / 4 ->
   Qfloor (Qabs (get_app_wind cd) / (M_PI_F / inject_Z n)) = 1%Z /\
   sail_controller cd (set_sail_positions n)
   == SAIL_SATURATION - SAIL_SATURATION / 4).
Proof.
  intros Hn Hfit.
  assert (Hsc : sail_controller cd (set_sail_positions n)
                = sail_trim_spec n (get_app_wind cd)).
  { unfold sail_controller, sail_trim_spec, set_sail_positions.
    cbn [sail_controller_data.position_quantum sail_controller_data.command_quantum].
    rewrite sign_test_Qabs.
    pose proof (sector_nonneg (get_app_wind cd) n Hn) as Hpos.
    rewrite float_to_int32_in_range; rewrite Qtruncate_nonneg by assumption.
    - reflexivity.
    - split; [|assumption].
      transitivity 0%Z; [discriminate|].
      change 0%Z with (Qfloor 0). now apply Qfloor_resp_le. }
  split; [now rewrite Hsc|].
  intros -> Ha.
  assert (Hsector : Qfloor (Qabs (get_app_wind cd) / (M_PI_F / inject_Z 4)) = 1%Z)
    by now rewrite Ha.
  split; [exact Hsector|].
  rewrite Hsc. unfold sail_trim_spec. rewrite Hsector.
  change (inject_Z 1) with 1. change (inject_Z 4) with 4. ring.
Qed.

End GuidanceProperties.

Section NavigationProperties.

Context `{libm}.

(** ** Race frame *)

(** C9.  For the NED position (N, E) that [geo_to_ned] gives, the race
    coordinates returned by [geo_to_race] are
    [x = - cos_mwd * N - sin_mwd * E + cos_mwd * n0 + sin_mwd * e0] and
    [y = - sin_mwd * N + cos_mwd * E + sin_mwd * n0 - cos_mwd * e0],
    converted to 32-bit decimeters: each output is the truncation of its
    expression, less than one decimeter away from it, provided the
    truncation fits 32 bits. *)
Theorem geo_to_race_rotation ns gps :
  let r := ned_to_race_s ns in
  let N := inject_Z (geo_to_ned ns gps).1.1 in
  let E := inject_Z (geo_to_ned ns gps).1.2 in
  let X := race_x_spec (ned_to_race_s.cos_mwd r) (ned_to_race_s.sin_mwd r) N E
             (inject_Z (ned_to_race_s.n0_dm r)) (inject_Z (ned_to_race_s.e0_dm r)) in
  let Y := race_y_spec (ned_to_race_s.cos_mwd r) (ned_to_race_s.sin_mwd r) N E
             (inject_Z (ned_to_race_s.n0_dm r)) (inject_Z (ned_to_race_s.e0_dm r)) in
  geo_to_race ns gps = (float_to_int32 X, float_to_int32 Y) /\
  ((INT32_MIN <= Qtruncate X <= INT32_MAX)%Z ->
   (geo_to_race ns gps).1 = Qtruncate X /\
   Qabs (X - inject_Z (geo_to_race ns gps).1) < 1) /\
  ((INT32_MIN <= Qtruncate Y <= INT32_MAX)%Z ->
   (geo_to_race ns gps).2 = Qtruncate Y /\
   Qabs (Y - inject_Z (geo_to_race ns gps).2) < 1).
Proof.
  intros r N E X Y.
  assert (Hg : geo_to_race ns gps = (float_to_int32 X, float_to_int32 Y)).
  { unfold geo_to_race, X, Y, N, E, r, race_x_spec, race_y_spec.
    now destruct (geo_to_ned ns gps) as [[north_dm east_dm] down_dm]. }
  rewrite Hg. cbn [fst snd]. repeat split.
  - now apply float_to_int32_in_range.
  - rewrite float_to_int32_in_range by assumption. apply Qtruncate_error.
  - now apply float_to_int32_in_range.
  - rewrite float_to_int32_in_range by assumption. apply Qtruncate_error.
Qed.

End NavigationProperties.

Section GuidanceMoreProperties.

Context `{settings}.

(** Replaces a division by a literal by the product with its inverse. *)
Ltac inverse_literals :=
  unfold Qdiv;
  repeat match goal with
  | |- context [Qinv (Qmake ?n ?d)] =>
      let v := eval cbv in (Qinv (Qmake n d)) in
      change (Qinv (Qmake n d)) with v
  end.

(** ** Helmsman rudder command *)

Lemma helmsman_tack_p2s_rudder_range alpha :
  0 <= RUDDER_45_LEFT ->
  0 <= fst (helmsman_tack_p2s alpha) <= RUDDER_45_LEFT.
Proof.
  unfold helmsman_tack_p2s. cbn [fst].
  generalize RUDDER_45_LEFT. intros R HR.
  repeat split_if; order_of_bool; inverse_literals; split; nra.
Qed.

(** X1.  Range of the helmsman rudder command, for a non-negative
    [RUDDER_45_LEFT]: the port-to-starboard law commands a rudder within
    [0, RUDDER_45_LEFT] for every angle, the starboard-to-port law one
    within [-RUDDER_45_LEFT, 0]. *)
Theorem helmsman_rudder_range alpha :
  0 <= RUDDER_45_LEFT ->
  (0 <= fst (helmsman_tack_p2s alpha) <= RUDDER_45_LEFT) /\
  (- RUDDER_45_LEFT <= fst (helmsman_tack_s2p alpha) <= 0).
Proof.
  intros HR. split; [now apply helmsman_tack_p2s_rudder_range|].
  pose proof (helmsman_tack_p2s_rudder_range (- alpha) HR) as Hp.
  unfold helmsman_tack_s2p.
  destruct (helmsman_tack_p2s (- alpha)) as [rudder_port sails].
  cbn [fst] in *. lra.
Qed.


(** ** Sail controller *)

Lemma float_to_int32_monotone (x y : Q) :
  0 <= x -> x <= y -> (float_to_int32 x <= float_to_int32 y)%Z.
Proof.
  intros Hx Hxy. unfold float_to_int32.
  rewrite !Qtruncate_nonneg by lra.
  pose proof (Qfloor_resp_le x y Hxy). lia.
Qed.

Lemma float_to_int32_nonneg (x : Q) : 0 <= x -> (0 <= float_to_int32 x)%Z.
Proof.
  intros Hx. unfold float_to_int32. rewrite Qtruncate_nonneg by assumption.
  pose proof (Qfloor_resp_le 0 x Hx) as Hf. change (Qfloor 0) with 0%Z in Hf.
  unfold INT32_MIN, INT32_MAX. lia.
Qed.

(** X2.  For a positive angle quantum and a non-negative command
    quantum, and for apparent wind angles whose sector fits the 32-bit
    sector variable, the sail command does not grow with the magnitude
    of the apparent wind angle, and never exceeds [SAIL_SATURATION]: the
    sails are the most closed at an angle of zero. *)
Theorem sail_controller_monotone (cd1 cd2 : controller_data) (sd : sail_controller_data.t) :
  0 < sail_controller_data.position_quantum sd ->
  0 <= sail_controller_data.command_quantum sd ->
  Qabs (get_app_wind cd1) <= Qabs (get_app_wind cd2) ->
  (Qfloor (Qabs (get_app_wind cd2) / sail_controller_data.position_quantum sd)
   <= INT32_MAX)%Z ->
  sail_controller cd2 sd <= sail_controller cd1 sd <= SAIL_SATURATION.
Proof.
  intros Hq Hc Ha _. unfold sail_controller. rewrite !sign_test_Qabs.
  set (q := sail_controller_data.position_quantum sd) in *.
  set (c := sail_controller_data.command_quantum sd) in *.
  assert (H1 : 0 <= Qabs (get_app_wind cd1) / q).
  { apply Qle_shift_div_l; [assumption|]. rewrite Qmult_0_l. apply Qabs_nonneg. }
  assert (H12 : Qabs (get_app_wind cd1) / q <= Qabs (get_app_wind cd2) / q).
  { unfold Qdiv. apply Qmult_le_compat_r; [assumption|].
    apply Qlt_le_weak, Qinv_lt_0_compat, Hq. }
  pose proof (float_to_int32_monotone _ _ H1 H12) as Hs.
  pose proof (float_to_int32_nonneg _ H1) as Hs0.
  rewrite Zle_Qle in Hs, Hs0. change (inject_Z 0) with 0 in Hs0.
  split; nra.
Qed.

(** X3.  After [set_sail_positions n] with a positive number of
    positions, and for an apparent wind angle of magnitude at most pi,
    the command of [sail_controller] is within [0, SAIL_SATURATION]
    before any saturation is applied. *)
Theorem sail_controller_range (n : Z) (cd : controller_data) :
  0 <= SAIL_SATURATION ->
  (0 < n <= INT32_MAX)%Z ->
  Qabs (get_app_wind cd) <= M_PI_F ->
  0 <= sail_controller cd (set_sail_positions n) <= SAIL_SATURATION.
Proof.
  intros Hs [Hn Hmax] Ha.
  assert (Hn' : 0 < inject_Z n) by (change 0 with (inject_Z 0); now rewrite <- Zlt_Qlt).
  pose proof (position_quantum_pos n Hn) as Hq.
  pose proof (sector_nonneg (get_app_wind cd) n Hn) as Hpos.
  assert (Hle : Qabs (get_app_wind cd) / (M_PI_F / inject_Z n) <= inject_Z n).
  { apply Qle_shift_div_r; [assumption|].
    setoid_replace (inject_Z n * (M_PI_F / inject_Z n)) with M_PI_F using relation Qeq;
      [assumption|]. field. lra. }
  unfold sail_controller, set_sail_positions.
  cbn [sail_controller_data.position_quantum sail_controller_data.command_quantum].
  rewrite sign_test_Qabs.
  pose proof (float_to_int32_nonneg _ Hpos) as Hs0.
  pose proof (float_to_int32_monotone _ _ Hpos Hle) as Hsn.
  assert (Hnn : float_to_int32 (inject_Z n) = n).
  { unfold float_to_int32. rewrite Qtruncate_nonneg by lra. rewrite Qfloor_Z.
    unfold INT32_MIN in *. lia. }
  rewrite Hnn in Hsn. rewrite Zle_Qle in Hs0, Hsn. change (inject_Z 0) with 0 in Hs0.
  set (sector := inject_Z (float_to_int32 _)) in *.
  assert (Hfrac : sector * (SAIL_SATURATION / inject_Z n)
                  == SAIL_SATURATION * (sector / inject_Z n)) by (field; lra).
  assert (Hr : 0 <= sector / inject_Z n <= 1).
  { split.
    - apply Qle_shift_div_l; [assumption|]. lra.
    - apply Qle_shift_div_r; [assumption|]. lra. }
  rewrite Hfrac. split; nra.
Qed.


(** ** PI data *)

(** X4.  [set_pi_rudder_data] stores the mode asked for.  When the mode
    does not change, the last command and the sum of errors are kept and
    no message is sent; when it changes, both are reset to zero and one
    message is sent.  A second call with the same arguments therefore
    changes nothing and sends nothing. *)
Theorem set_pi_rudder_data_switch p i cp ci use_conditional kaw pd :
  let pd' := fst (set_pi_rudder_data p i cp ci use_conditional kaw pd) in
  let events := snd (set_pi_rudder_data p i cp ci use_conditional kaw pd) in
  pi_rudder_data.use_conditional pd' = (use_conditional >? 0)%Z /\
  (pi_rudder_data.use_conditional pd = (use_conditional >? 0)%Z ->
   pi_rudder_data.last_command pd' = pi_rudder_data.last_command pd /\
   pi_rudder_data.sum_error_pi pd' = pi_rudder_data.sum_error_pi pd /\
   events = []) /\
  (pi_rudder_data.use_conditional pd <> (use_conditional >? 0)%Z ->
   pi_rudder_data.last_command pd' = 0 /\
   pi_rudder_data.sum_error_pi pd' = 0 /\
   exists txt_msg, events = [send_log_info txt_msg]) /\
  set_pi_rudder_data p i cp ci use_conditional kaw pd' = (pd', []).
Proof.
  unfold set_pi_rudder_data. cbn [fst snd pi_rudder_data.use_conditional
    pi_rudder_data.last_command pi_rudder_data.sum_error_pi].
  destruct (pi_rudder_data.use_conditional pd) eqn:Em;
    destruct (Z.gtb_spec use_conditional 0) as [Hu|Hu];
    try (apply Z.leb_le in Hu as Hu'); try (apply Z.leb_gt in Hu as Hu');
    rewrite ?Hu'; cbn; repeat split; try congruence; eauto.
Qed.


Lemma pi_controller_keeps_gains ref meas pd :
  let pd' := snd (pi_controller ref meas pd) in
  pi_rudder_data.p pd' = pi_rudder_data.p pd /\
  pi_rudder_data.i pd' = pi_rudder_data.i pd /\
  pi_rudder_data.kaw pd' = pi_rudder_data.kaw pd /\
  pi_rudder_data.cp pd' = pi_rudder_data.cp pd /\
  pi_rudder_data.ci pd' = pi_rudder_data.ci pd /\
  pi_rudder_data.use_conditional pd' = pi_rudder_data.use_conditional pd /\
  pi_rudder_data.last_command pd' = fst (pi_controller ref meas pd).
Proof.
  unfold pi_controller.
  destruct (pi_rudder_data.use_conditional pd); cbn; repeat split.
Qed.

Lemma pi_controller_conditional_sum ref meas pd :
  pi_rudder_data.use_conditional pd = true ->
  pi_rudder_data.sum_error_pi (snd (pi_controller ref meas pd))
  = pi_rudder_data.sum_error_pi pd + (ref - meas).
Proof.
  intros Hc. unfold pi_controller. now rewrite Hc.
Qed.

(** X5.  With conditional integration, after any sequence of calls of
    [pi_controller] the stored sum is the initial sum plus the sum of all
    the errors (reference - measure): the sum itself is never limited,
    only the gain applied to it.  The mode is kept and every call returns
    one action. *)
Theorem pi_run_conditional_sum pd calls :
  pi_rudder_data.use_conditional pd = true ->
  let pd' := snd (pi_run pd calls) in
  pi_rudder_data.sum_error_pi pd' == pi_rudder_data.sum_error_pi pd + sum_errors calls /\
  pi_rudder_data.use_conditional pd' = true /\
  length (fst (pi_run pd calls)) = length calls.
Proof.
  revert pd. induction calls as [|[ref meas] calls IH]; intros pd Hc;
    cbn [pi_run sum_errors fold_right].
  - cbn [fst snd length]. repeat split; trivial. ring.
  - pose proof (pi_controller_keeps_gains ref meas pd) as Hk.
    pose proof (pi_controller_conditional_sum ref meas pd Hc) as Hs.
    destruct (pi_controller ref meas pd) as [action pd1]. cbn [fst snd] in Hk, Hs.
    destruct Hk as (_ & _ & _ & _ & _ & Hm & _). rewrite Hc in Hm.
    specialize (IH pd1 Hm). cbv zeta in IH.
    destruct (pi_run pd1 calls) as [actions pd2]. cbn [fst snd] in *.
    destruct IH as (IHs & IHm & IHl). repeat split; trivial.
    + rewrite IHs, Hs. fold (sum_errors calls). cbn [fst snd]. ring.
    + cbn [length]. now rewrite IHl.
Qed.

(** X6.  The normal PI with anti wind-up, for a non-negative
    [RUDDER_SATURATION].  When the last command was within the
    saturation limits the sum of errors grows by the error alone; when it
    was above the upper limit, or below the lower one, the sum is moved
    in addition by [kaw] times the excess, against it.  The action
    returned is [p * error + i * sum] with the updated sum. *)
Theorem pi_controller_anti_wind_up ref meas pd :
  0 <= RUDDER_SATURATION ->
  pi_rudder_data.use_conditional pd = false ->
  let last := pi_rudder_data.last_command pd in
  let sum := pi_rudder_data.sum_error_pi pd in
  let sum' := pi_rudder_data.sum_error_pi (snd (pi_controller ref meas pd)) in
  (- RUDDER_SATURATION <= last <= RUDDER_SATURATION -> sum' == sum + (ref - meas)) /\
  (RUDDER_SATURATION < last ->
   sum' == sum + (ref - meas) - pi_rudder_data.kaw pd * (last - RUDDER_SATURATION)) /\
  (last < - RUDDER_SATURATION ->
   sum' == sum + (ref - meas) + pi_rudder_data.kaw pd * (- RUDDER_SATURATION - last)) /\
  fst (pi_controller ref meas pd)
  == pi_rudder_data.p pd * (ref - meas) + pi_rudder_data.i pd * sum'.
Proof.
  intros Hs Hc. unfold pi_controller. rewrite Hc. cbn [fst snd pi_rudder_data.sum_error_pi].
  unfold rudder_saturation. split; [|split; [|split]].
  - intros [Hlo Hhi]. repeat split_if; order_of_bool; try lra; ring.
  - intros Hhi. repeat split_if; order_of_bool; try lra; ring.
  - intros Hlo. repeat split_if; order_of_bool; try lra; ring.
  - reflexivity.
Qed.


(** ** Completion of a tack *)

(** Decides an equation between two boolean combinations of comparisons
    by splitting on every comparison. *)
Ltac compare_cases :=
  repeat match goal with
  | |- context [Qlt_bool ?a ?b] =>
      let E := fresh "E" in destruct (Qlt_bool a b) eqn:E
  | |- context [Qle_bool ?a ?b] =>
      let E := fresh "E" in destruct (Qle_bool a b) eqn:E
  end;
  order_of_bool; try reflexivity; exfalso.

Lemma roll_stop_tack_mirror angle i td :
  roll_stop_tack (- angle) i (mirror_tack_data td) = roll_stop_tack angle i td.
Proof.
  unfold roll_stop_tack, mirror_tack_data.
  cbn [tack_data.roll_before_tack tack_data.roll_stop_tack].
  destruct i; cbn [nth2 fst snd];
    [set (before := fst (tack_data.roll_before_tack td))
    |set (before := snd (tack_data.roll_before_tack td))];
    unfold Qdiv; set (inv_stop := / tack_data.roll_stop_tack td);
    compare_cases; nra.
Qed.

(** X7.  Mirror symmetry of the roll condition.  On a tack and on its
    mirror image (the stored rolls and the measured rolls negated) the
    roll condition gives the same answer on each source, and so does the
    first condition of [is_tack_completed], the roll condition on either
    source. *)
Theorem roll_stop_tack_mirror_symmetry strs td :
  (forall angle i,
     roll_stop_tack (- angle) i (mirror_tack_data td) = roll_stop_tack angle i td) /\
  roll_stop_tack (roll (att (mirror_topics strs))) i0 (mirror_tack_data td)
  || roll_stop_tack (roll_r (boat_weather_station (mirror_topics strs))) i1
       (mirror_tack_data td)
  = roll_stop_tack (roll (att strs)) i0 td
    || roll_stop_tack (roll_r (boat_weather_station strs)) i1 td.
Proof.
  split; [intros angle i; apply roll_stop_tack_mirror|].
  unfold mirror_topics. cbn [att boat_weather_station roll roll_r].
  now rewrite !roll_stop_tack_mirror.
Qed.

Lemma roll_stop_tack_zero_start angle i td :
  nth2 (tack_data.roll_before_tack td) i == 0 ->
  roll_stop_tack angle i td = false.
Proof.
  intros Hz. unfold roll_stop_tack.
  repeat split_if; order_of_bool; try reflexivity; lra.
Qed.

Lemma is_tack_completed_zero_roll strs td :
  fst (tack_data.roll_before_tack td) == 0 ->
  snd (tack_data.roll_before_tack td) == 0 ->
  is_tack_completed strs td = false.
Proof.
  intros H0 H1. unfold is_tack_completed.
  now rewrite (roll_stop_tack_zero_start _ i0 td H0),
    (roll_stop_tack_zero_start _ i1 td H1).
Qed.

(** X8.  With a positive roll threshold, a tack is only seen as
    completed when, on at least one of the two sources, the roll has
    changed sign since the tack started: the product of the stored roll
    and of the measured roll is negative. *)
Theorem is_tack_completed_roll_changed_sign strs td :
  0 < tack_data.roll_stop_tack td ->
  is_tack_completed strs td = true ->
  fst (tack_data.roll_before_tack td) * roll (att strs) < 0 \/
  snd (tack_data.roll_before_tack td) * roll_r (boat_weather_station strs) < 0.
Proof.
  intros Hs Hc. unfold is_tack_completed in Hc.
  apply andb_true_iff in Hc as [Hroll _].
  apply orb_true_iff in Hroll.
  assert (Hsign : forall angle i, roll_stop_tack angle i td = true ->
                    nth2 (tack_data.roll_before_tack td) i * angle < 0).
  { intros angle i. unfold roll_stop_tack.
    set (before := nth2 (tack_data.roll_before_tack td) i).
    assert (Hpos : 0 < before -> 0 < before / tack_data.roll_stop_tack td).
    { intros Hb. apply Qlt_shift_div_l; [assumption|]. lra. }
    assert (Hneg : before < 0 -> before / tack_data.roll_stop_tack td < 0).
    { intros Hb. apply Qlt_shift_div_r; [assumption|]. lra. }
    assert (Ho : - before / tack_data.roll_stop_tack td
                 == - (before / tack_data.roll_stop_tack td)) by (unfold Qdiv; ring).
    set (bound := before / tack_data.roll_stop_tack td) in *.
    repeat split_if; intros Ha; order_of_bool; try discriminate;
      rewrite Ho in Ha.
    - specialize (Hpos E). nra.
    - specialize (Hneg E0). nra. }
  destruct Hroll as [Hr|Hr]; [left|right]; exact (Hsign _ _ Hr).
Qed.

Lemma yaw_stop_tack_not_after_left_turn angle i td :
  tack_data.tack_rudder_command td <= 0 ->
  0 < tack_data.yaw_stop_tack td ->
  nth2 (tack_data.yaw_before_tack td) i <= 0 ->
  angle <= nth2 (tack_data.yaw_before_tack td) i ->
  yaw_stop_tack angle i td = false.
Proof.
  intros Hc Hs Hb Ha. unfold yaw_stop_tack.
  repeat split_if; order_of_bool; try reflexivity; lra.
Qed.

(** X9.  A turn to the left that the yaw condition cannot see.  When the
    stored tack rudder command is not positive (it is 0 in every state
    the module reaches), the yaw threshold is positive, and the tack
    started at a yaw that was not positive on both sources, the tack is
    not seen as completed as long as both measured yaws are at or below
    the yaws stored at the start, however far the boat has turned. *)
Theorem is_tack_completed_left_turn_unseen strs td :
  tack_data.tack_rudder_command td <= 0 ->
  0 < tack_data.yaw_stop_tack td ->
  fst (tack_data.yaw_before_tack td) <= 0 ->
  snd (tack_data.yaw_before_tack td) <= 0 ->
  yaw (att strs) <= fst (tack_data.yaw_before_tack td) ->
  heading_tn (boat_weather_station strs) <= snd (tack_data.yaw_before_tack td) ->
  is_tack_completed strs td = false.
Proof.
  intros Hc Hs Hb0 Hb1 Ha0 Ha1. unfold is_tack_completed.
  rewrite (yaw_stop_tack_not_after_left_turn _ i0 td Hc Hs Hb0 Ha0),
    (yaw_stop_tack_not_after_left_turn _ i1 td Hc Hs Hb1 Ha1).
  apply andb_false_r.
Qed.

(** ** One cycle *)




(** A cycle that is not asked to tack leaves the reference and the tack
    data alone and calls no collaborator. *)
Lemma guidance_module_not_tacking ref_act param_qgc strs cd g :
  should_tack ref_act = false ->
  let out := guidance_module ref_act param_qgc strs cd g in
  out.1.1.1 = ref_act /\ out.2 = [] /\ tack_data out.1.2 = tack_data g.
Proof.
  intros Hst. unfold guidance_module.
  rewrite Hst. cbn [negb]. rewrite Hst. cbn [negb].
  destruct (pi_controller _ _ _) as [action pd].
  repeat split.
Qed.

(** The cycle that starts a tack: what it stores. *)
Lemma guidance_module_tack_start_state ref_act param_qgc strs cd g :
  should_tack ref_act = true ->
  tack_data.boat_is_tacking (tack_data g) = false ->
  let out := guidance_module ref_act param_qgc strs cd g in
  out.1.1.1 = ref_act /\
  out.2 = [] /\
  tack_data.boat_is_tacking (tack_data out.1.2) = true /\
  tack_data.roll_before_tack (tack_data out.1.2)
  = (roll (att strs), roll_r (boat_weather_station strs)).
Proof.
  intros Hst Htk. unfold guidance_module, tack_action.
  rewrite Hst, Htk.
  destruct (if - alpha_star ref_act <? 0 then _ else _) as [r s].
  rewrite Hst. repeat split.
Qed.

(** X10.  What one cycle of [guidance_module] leaves alone: the
    attitude, weather station and position topics; every actuator
    control other than the rudder (index 0) and the sails (index 3); the
    optimal angle of the reference action; the sail controller data; the
    PI data when the cycle ends with a tack still requested; the tack
    data when the cycle was entered without a tack requested.  The debug
    topic receives the two commands that are published. *)
Theorem guidance_module_frame ref_act param_qgc strs cd g :
  let out := guidance_module ref_act param_qgc strs cd g in
  let strs' := out.1.1.2 in
  let g' := out.1.2 in
  att strs' = att strs /\
  boat_weather_station strs' = boat_weather_station strs /\
  gps_filtered strs' = gps_filtered strs /\
  (forall k : fin NUM_ACTUATOR_CONTROLS,
     k <> 0%fin -> k <> 3%fin ->
     actuators_control strs' !!! k = actuators_control strs !!! k) /\
  rudder_action (boat_guidance_debug strs') = published_rudder out /\
  sail_action (boat_guidance_debug strs') = published_sail out /\
  alpha_star out.1.1.1 = alpha_star ref_act /\
  sail_controller_data g' = sail_controller_data g /\
  (should_tack out.1.1.1 = true -> pi_rudder_data g' = pi_rudder_data g) /\
  (should_tack ref_act = false -> tack_data g' = tack_data g).
Proof.
  unfold guidance_module, published_rudder, published_sail.
  unfold tack_action.
  destruct (should_tack ref_act) eqn:Est.
  - destruct (tack_data.boat_is_tacking (tack_data g)) eqn:Etk;
      [destruct (is_tack_completed strs (tack_data g)) eqn:Ec|].
    all: cbn [should_tack alpha_star negb].
    all: destruct (if - alpha_star ref_act <? 0 then _ else _) as [r s].
    all: rewrite ?Est; cbn [negb].
    all: try destruct (pi_controller _ _ _) as [action pd].
    all: cbn [fst snd att boat_weather_station gps_filtered actuators_control
              boat_guidance_debug rudder_action sail_action alpha_star
              sail_controller_data pi_rudder_data tack_data should_tack].
    all: rewrite actuators_control_rudder, actuators_control_sail.
    all: repeat split; try congruence.
    all: intros k Hk0 Hk3; now rewrite !vlookup_insert_ne by congruence.
  - cbn [negb should_tack]. rewrite Est. cbn [negb].
    destruct (pi_controller _ _ _) as [action pd].
    cbn [fst snd att boat_weather_station gps_filtered actuators_control
         boat_guidance_debug rudder_action sail_action alpha_star
         sail_controller_data pi_rudder_data tack_data should_tack].
    rewrite actuators_control_rudder, actuators_control_sail.
    repeat split; try congruence.
    intros k Hk0 Hk3; now rewrite !vlookup_insert_ne by congruence.
Qed.


(** X11.  A cycle entered without a tack requested: the reference
    action and the tack data are unchanged, no collaborator is called,
    the PI data are those left by [pi_controller] on the optimal angle
    and the measured angle, and the published commands are the saturated
    PI rudder command and the saturated sail (or manual sail) command. *)
Theorem guidance_module_tracking_cycle ref_act param_qgc strs cd g :
  should_tack ref_act = false ->
  let out := guidance_module ref_act param_qgc strs cd g in
  out.1.1.1 = ref_act /\
  out.2 = [] /\
  tack_data out.1.2 = tack_data g /\
  pi_rudder_data out.1.2
  = snd (pi_controller (alpha_star ref_act) (get_alpha cd) (pi_rudder_data g)) /\
  published_rudder out
  = rudder_saturation (fst (tracking_commands ref_act param_qgc cd g)) /\
  published_sail out
  = sail_saturation (snd (tracking_commands ref_act param_qgc cd g)).
Proof.
  intros Hst.
  unfold guidance_module, tracking_commands, published_rudder, published_sail.
  rewrite Hst. cbn [negb]. rewrite Hst. cbn [negb].
  destruct (pi_controller _ _ _) as [action pd].
  cbn [fst snd actuators_control tack_data pi_rudder_data].
  rewrite actuators_control_rudder, actuators_control_sail.
  repeat split.
Qed.

(** X12.  The cycle that starts a tack (tack requested, boat not yet
    tacking): the boat is marked as tacking, the rolls and yaws of both
    sources are stored, the request stays, no collaborator is called, the
    PI data are untouched, and the published commands are the saturated
    helmsman commands. *)
Theorem guidance_module_starts_tack ref_act param_qgc strs cd g :
  should_tack ref_act = true ->
  tack_data.boat_is_tacking (tack_data g) = false ->
  let out := guidance_module ref_act param_qgc strs cd g in
  let td' := tack_data out.1.2 in
  out.1.1.1 = ref_act /\
  out.2 = [] /\
  tack_data.boat_is_tacking td' = true /\
  tack_data.roll_before_tack td'
  = (roll (att strs), roll_r (boat_weather_station strs)) /\
  tack_data.yaw_before_tack td'
  = (yaw (att strs), heading_tn (boat_weather_station strs)) /\
  pi_rudder_data out.1.2 = pi_rudder_data g /\
  published_rudder out = rudder_saturation (fst (helmsman_commands ref_act cd)) /\
  published_sail out = sail_saturation (snd (helmsman_commands ref_act cd)).
Proof.
  intros Hst Htk.
  unfold guidance_module, tack_action, published_rudder, published_sail.
  rewrite Hst, Htk. fold (helmsman_commands ref_act cd).
  destruct (helmsman_commands ref_act cd) as [r s].
  rewrite Hst. cbn [negb fst snd actuators_control tack_data pi_rudder_data
    tack_data.boat_is_tacking tack_data.roll_before_tack tack_data.yaw_before_tack
    set2].
  rewrite actuators_control_rudder, actuators_control_sail.
  repeat split.
Qed.

(** ** Tacks that cannot end *)

Lemma tack_locked_cycle ref_act param_qgc strs cd g :
  tack_locked ref_act g ->
  let out := guidance_module ref_act param_qgc strs cd g in
  out.1.1.1 = ref_act /\ out.1.2 = g /\ out.2 = [] /\
  published_rudder out = rudder_saturation (fst (helmsman_commands ref_act cd)) /\
  published_sail out = sail_saturation (snd (helmsman_commands ref_act cd)).
Proof.
  intros (Hst & Htk & H0 & H1).
  pose proof (is_tack_completed_zero_roll strs (tack_data g) H0 H1) as Hc.
  destruct (guidance_module_keeps_tacking ref_act param_qgc strs cd g Hst Htk Hc)
    as (Er & Es & Era & Eg & Eev).
  repeat split; assumption.
Qed.

Lemma tack_locked_cycles ref_act strs g cycles :
  tack_locked ref_act g ->
  let out := guidance_cycles ref_act strs g cycles in
  out.1.1.1 = ref_act /\ out.1.2 = g /\ out.2 = [].
Proof.
  intros Hl. revert strs.
  induction cycles as [|c cycles IH]; intros strs; cbn [guidance_cycles].
  - repeat split.
  - pose proof (tack_locked_cycle ref_act (cycle_param_qgc c) (refresh_topics strs c)
                  (cycle_controller_data c) g Hl) as (Era & Eg & Eev & _).
    destruct (guidance_module _ _ _ _ _) as [[[ra1 strs1] g1] ev1].
    cbn [fst snd] in Era, Eg, Eev. subst ra1 g1 ev1.
    specialize (IH strs1).
    destruct (guidance_cycles ref_act strs1 g cycles) as [[[ra2 strs2] g2] ev2].
    cbn [fst snd] in *. destruct IH as (-> & -> & ->). repeat split.
Qed.

(** X13.  A tack that cannot end.  When a tack starts in a cycle whose
    roll readings are exactly zero on both sources, then after any
    number of further cycles, whatever their readings and parameters,
    the tack is still requested, the boat is still marked as tacking,
    and the collaborators were never notified. *)
Theorem tack_from_zero_roll_never_ends ref_act strs g c cycles :
  should_tack ref_act = true ->
  tack_data.boat_is_tacking (tack_data g) = false ->
  roll (cycle_att c) == 0 ->
  roll_r (cycle_boat_weather_station c) == 0 ->
  let out := guidance_cycles ref_act strs g (c :: cycles) in
  should_tack out.1.1.1 = true /\
  tack_data.boat_is_tacking (tack_data out.1.2) = true /\
  out.2 = [].
Proof.
  intros Hst Htk H0 H1. cbn [guidance_cycles].
  pose proof (guidance_module_tack_start_state ref_act (cycle_param_qgc c)
                (refresh_topics strs c) (cycle_controller_data c) g Hst Htk)
    as (Era & Eev & Etk & Eroll).
  destruct (guidance_module _ _ _ _ _) as [[[ra1 strs1] g1] ev1].
  cbn [fst snd] in Era, Eev, Etk, Eroll. subst ra1 ev1.
  assert (Hl : tack_locked ref_act g1).
  { unfold tack_locked. rewrite Eroll. cbn [fst snd refresh_topics att
      boat_weather_station]. repeat split; assumption. }
  pose proof (tack_locked_cycles ref_act strs1 g1 cycles Hl) as (Era & Eg & Eev).
  destruct (guidance_cycles ref_act strs1 g1 cycles) as [[[ra2 strs2] g2] ev2].
  cbn [fst snd] in *. subst. repeat split; assumption.
Qed.

End GuidanceMoreProperties.

Section NavigationMoreProperties.

Context `{libm}.

(** ** Conversions of exact values *)

Lemma Qtruncate_inject_Z (q : Q) (z : Z) : q == inject_Z z -> Qtruncate q = z.
Proof.
  destruct q as [n d]. unfold Qeq, Qtruncate. cbn. intros Hq.
  rewrite Z.mul_1_r in Hq. subst n. apply Z.quot_mul. discriminate.
Qed.

Lemma float_to_int32_inject_Z (q : Q) (z : Z) :
  q == inject_Z z -> in_int32 z -> float_to_int32 q = z.
Proof.
  intros Hq Hz. unfold float_to_int32. rewrite (Qtruncate_inject_Z q z Hq).
  unfold in_int32 in Hz. lia.
Qed.

Lemma float_to_int32_zero (q : Q) : q == 0 -> float_to_int32 q = 0%Z.
Proof.
  intros Hq. apply (float_to_int32_inject_Z q 0 Hq). split; discriminate.
Qed.


(** ** Reference points *)


Lemma geo_to_ned_ignores_race ns r gps :
  geo_to_ned (with_ned_to_race ns r) gps = geo_to_ned ns gps.
Proof.
  reflexivity.
Qed.

(** X15.  The origin of the race frame.  After [set_pos_top_mark] on
    integer coordinates, [geo_to_race] maps the position with those
    coordinates to (0, 0), for every mean wind angle and origin of the
    NED frame, and [navigation_module] then reports 0 m on both axes.
    Exact arithmetic, as for the origin of the NED frame. *)
Theorem geo_to_race_top_mark ns lat_d_e7 lon_d_e7 alt_mm strs :
  let ns' := set_pos_top_mark lat_d_e7 lon_d_e7 alt_mm ns in
  geo_to_race ns' (position_of_e7 lat_d_e7 lon_d_e7 alt_mm) = (0, 0)%Z /\
  (gps_filtered strs = position_of_e7 lat_d_e7 lon_d_e7 alt_mm ->
   x_race_m (navigation_module ns' strs) == 0 /\
   y_race_m (navigation_module ns' strs) == 0).
Proof.
  intros ns'.
  assert (Hr : geo_to_race ns' (position_of_e7 lat_d_e7 lon_d_e7 alt_mm) = (0, 0)%Z).
  { unfold ns', set_pos_top_mark, geo_to_race.
    fold (position_of_e7 lat_d_e7 lon_d_e7 alt_mm).
    destruct (geo_to_ned ns (position_of_e7 lat_d_e7 lon_d_e7 alt_mm))
      as [[north_dm east_dm] down_dm] eqn:En.
    rewrite geo_to_ned_ignores_race, En.
    cbn [ned_to_race_s with_ned_to_race ned_to_race_s.cos_mwd ned_to_race_s.sin_mwd
         ned_to_race_s.n0_dm ned_to_race_s.e0_dm].
    rewrite !float_to_int32_zero by ring. reflexivity. }
  split; [exact Hr|].
  intros Hg. unfold navigation_module. rewrite Hg, Hr. cbn [x_race_m y_race_m].
  split; reflexivity.
Qed.

(** X16.  The setters of the navigation module do not disturb each
    other: the mean wind angle read back is the one set, also after the
    top mark or the NED origin is set; [geo_to_ned] does not depend on
    the mean wind angle nor on the top mark; [set_ref0] leaves the race
    frame data alone; setting the mean wind angle commutes with setting
    the NED origin and with setting the top mark. *)
Theorem navigation_setters_independent ns mean_wind lat_d_e7 lon_d_e7 alt_mm gps :
  get_mean_wind_angle (set_mean_wind_angle mean_wind ns) = mean_wind /\
  get_mean_wind_angle
    (set_pos_top_mark lat_d_e7 lon_d_e7 alt_mm (set_mean_wind_angle mean_wind ns))
  = mean_wind /\
  get_mean_wind_angle
    (set_ref0 lat_d_e7 lon_d_e7 alt_mm (set_mean_wind_angle mean_wind ns))
  = mean_wind /\
  geo_to_ned (set_mean_wind_angle mean_wind ns) gps = geo_to_ned ns gps /\
  geo_to_ned (set_pos_top_mark lat_d_e7 lon_d_e7 alt_mm ns) gps = geo_to_ned ns gps /\
  ned_to_race_s (set_ref0 lat_d_e7 lon_d_e7 alt_mm ns) = ned_to_race_s ns /\
  set_ref0 lat_d_e7 lon_d_e7 alt_mm (set_mean_wind_angle mean_wind ns)
  = set_mean_wind_angle mean_wind (set_ref0 lat_d_e7 lon_d_e7 alt_mm ns) /\
  set_pos_top_mark lat_d_e7 lon_d_e7 alt_mm (set_mean_wind_angle mean_wind ns)
  = set_mean_wind_angle mean_wind (set_pos_top_mark lat_d_e7 lon_d_e7 alt_mm ns).
Proof.
  unfold get_mean_wind_angle, set_mean_wind_angle, set_pos_top_mark, set_ref0.
  fold (position_of_e7 lat_d_e7 lon_d_e7 alt_mm).
  rewrite !geo_to_ned_ignores_race.
  destruct (geo_to_ned ns (position_of_e7 lat_d_e7 lon_d_e7 alt_mm))
    as [[north_dm east_dm] down_dm].
  destruct (geo_to_ecef lat_d_e7 lon_d_e7 alt_mm) as [[x0 y0] z0].
  repeat split.
Qed.

End NavigationMoreProperties.

Module autonomous_sailing_properties.

Import autonomous_sailing.

Section MainLoopProperties.

Context `{settings} `{libm}.

(** ** Traces *)

Lemma published_app (tr1 tr2 : list app_event) :
  published (tr1 ++ tr2) = published tr1 ++ published tr2.
Proof.
  induction tr1 as [|e tr1 IH]; [reflexivity|].
  destruct e; cbn; now rewrite ?IH.
Qed.

Lemma guidance_events_app (tr1 tr2 : list app_event) :
  guidance_events (tr1 ++ tr2) = guidance_events tr1 ++ guidance_events tr2.
Proof.
  induction tr1 as [|e tr1 IH]; [reflexivity|].
  destruct e; cbn; now rewrite ?IH.
Qed.

Lemma published_guidance (evs : list event) : published (map guidance_event evs) = [].
Proof.
  now induction evs.
Qed.

Lemma guidance_events_map (evs : list event) :
  guidance_events (map guidance_event evs) = evs.
Proof.
  induction evs as [|e evs IH]; cbn; now rewrite ?IH.
Qed.

(** ** Parts of an iteration *)

Lemma apply_setter_tacking gn c :
  tack_data.boat_is_tacking (tack_data (fst (apply_setter gn c)).1)
  = tack_data.boat_is_tacking (tack_data gn.1) /\
  ~ In notify_tack_completed (snd (apply_setter gn c)).
Proof.
  destruct gn as [g ns], c; cbn; split; try tauto.
  unfold set_pi_rudder_data. cbn.
  destruct (_ || _); cbn; [|tauto]. intros [Hn|[]]. discriminate Hn.
Qed.

Lemma apply_setters_tacking gn cs :
  tack_data.boat_is_tacking (tack_data (fst (apply_setters gn cs)).1)
  = tack_data.boat_is_tacking (tack_data gn.1) /\
  ~ In notify_tack_completed (snd (apply_setters gn cs)).
Proof.
  revert gn. induction cs as [|c cs IH]; intros gn; cbn [apply_setters].
  - split; [reflexivity | intros []].
  - pose proof (apply_setter_tacking gn c) as [Ht Hn].
    destruct (apply_setter gn c) as [gn1 ev1]. cbn [fst snd] in *.
    specialize (IH gn1) as [IHt IHn].
    destruct (apply_setters gn1 cs) as [gn2 ev2]. cbn [fst snd] in *.
    split; [congruence|]. rewrite in_app_iff. tauto.
Qed.

Lemma apply_param_update_keeps u st :
  let out := apply_param_update u st in
  strs (fst out) = strs st /\
  ref_act (fst out) = ref_act st /\
  tack_data.boat_is_tacking (tack_data (guidance (fst out)))
  = tack_data.boat_is_tacking (tack_data (guidance st)) /\
  published (snd out) = [] /\
  ~ In notify_tack_completed (guidance_events (snd out)).
Proof.
  unfold apply_param_update.
  pose proof (apply_setters_tacking (guidance st, navigation st) (setter_calls u))
    as [Ht Hn].
  destruct (apply_setters _ _) as [[g ns] ev]. cbn [fst snd strs ref_act guidance] in *.
  rewrite published_guidance, guidance_events_map. repeat split; assumption.
Qed.

Lemma handle_poll_keeps it st :
  let out := handle_poll it st in
  actuators_control (strs (fst out)) = actuators_control (strs st) /\
  ref_act (fst out) = ref_act st /\
  guidance (fst out) = guidance st /\
  published (snd out) = [] /\
  guidance_events (snd out) = [].
Proof.
  unfold handle_poll, path_planning.
  destruct (poll_ret it =? 0)%Z; [repeat split|].
  destruct (gps_raw_pollin it), (gps_filtered_pollin it), (wind_sailing_pollin it);
    repeat split.
Qed.

(** ** Safety of what is published *)




Lemma as_subscriber_events s1 s2 s3 :
  published (snd (as_subscriber s1 s2 s3)) = [] /\
  guidance_events (snd (as_subscriber s1 s2 s3)) = [].
Proof.
  unfold as_subscriber.
  destruct (s1 =? -1)%Z; [|destruct (s2 =? -1)%Z; [|destruct (s3 =? -1)%Z]];
    split; reflexivity.
Qed.

(** *** Settings that divide by no zero *)








(** ** The reference action of the thread *)

Lemma loop_body_reference it st :
  ref_act st = fixed_reference ->
  let out := loop_body it st in
  ref_act (fst out) = fixed_reference /\
  tack_data.boat_is_tacking (tack_data (guidance (fst out)))
  = tack_data.boat_is_tacking (tack_data (guidance st)) /\
  ~ In notify_tack_completed (guidance_events (snd out)).
Proof.
  intros Hra. unfold loop_body.
  destruct (poll_ret it <? 0)%Z; [cbn; tauto|].
  pose proof (handle_poll_keeps it st) as (_ & Hr1 & Hg1 & _ & He1).
  destruct (handle_poll it st) as [st1 ev1]. cbn [fst snd] in Hr1, Hg1, He1.
  pose proof (apply_param_update_keeps (param_check_update it) st1)
    as (_ & Hr2 & Ht2 & _ & He2).
  destruct (apply_param_update (param_check_update it) st1) as [st2 ev2].
  cbn [fst snd] in Hr2, Ht2, He2.
  assert (Hst : should_tack (ref_act st2) = false) by now rewrite Hr2, Hr1, Hra.
  pose proof (guidance_module_not_tacking (ref_act st2) (qgc (params st2)) (strs st2)
                (readings it) (guidance st2) Hst) as (Era & Eev & Etd).
  destruct (guidance_module _ _ _ _ _) as [[[ra s] g] evg].
  cbn [fst snd ref_act guidance] in *. subst ra evg.
  split; [congruence|]. split; [rewrite Etd; congruence|].
  rewrite !guidance_events_app, He1. cbn. now rewrite app_nil_r.
Qed.

Lemma loop_reference its st :
  ref_act st = fixed_reference ->
  let out := loop its st in
  ref_act (fst out) = fixed_reference /\
  tack_data.boat_is_tacking (tack_data (guidance (fst out)))
  = tack_data.boat_is_tacking (tack_data (guidance st)) /\
  ~ In notify_tack_completed (guidance_events (snd out)).
Proof.
  revert st. induction its as [|it its IH]; intros st Hra; cbn [loop].
  - cbn. tauto.
  - pose proof (loop_body_reference it st Hra) as (Hr1 & Ht1 & He1).
    destruct (loop_body it st) as [st1 ev1]. cbn [fst snd] in Hr1, Ht1, He1.
    specialize (IH st1 Hr1) as (Hr2 & Ht2 & He2).
    destruct (loop its st1) as [st2 ev2]. cbn [fst snd] in *.
    split; [exact Hr2|]. split; [congruence|].
    rewrite guidance_events_app, in_app_iff. tauto.
Qed.

(** X18.  The thread never tacks.  [path_planning] is empty, so the
    reference action stays as initialised, with no tack requested:
    whatever the system delivers, the reference action at the end is the
    initial one, the tacking flag of the guidance module is the one it
    had at the start, and the collaborators are never notified of a
    completed tack. *)
Theorem thread_never_tacks g0 ns0 su its :
  let out := as_daemon_thread_main g0 ns0 su its in
  ref_act (fst out) = fixed_reference /\
  tack_data.boat_is_tacking (tack_data (guidance (fst out)))
  = tack_data.boat_is_tacking (tack_data g0) /\
  ~ In notify_tack_completed (guidance_events (snd out)).
Proof.
  unfold as_daemon_thread_main.
  destruct (subscriptions su) as [[s1 s2] s3].
  pose proof (as_subscriber_events s1 s2 s3) as [_ Hsub].
  destruct (as_subscriber s1 s2 s3) as [ok ev_sub]. cbn [snd] in Hsub.
  pose proof (apply_param_update_keeps (param_init su)
                {| strs := strs_at_start su; params := new_params (param_init su);
                   local_pos_r := {| x_race_cm := 0; y_race_cm := 0 |};
                   ref_act := {| alpha_star := 30; should_tack := false |};
                   guidance := g0; navigation := ns0 |}) as (_ & Hr0 & Ht0 & _ & He0).
  destruct (apply_param_update (param_init su) _) as [st0 ev_param].
  cbn [fst snd ref_act guidance] in Hr0, Ht0, He0.
  unfold actuators_init.
  set (st1 := {| strs := _ |}).
  pose proof (loop_reference (if armed_pub_ok su && actuator_pub_ok su then its else [])
                st1 Hr0) as (Hr & Ht & He).
  destruct (loop _ st1) as [st2 ev_loop]. cbn [fst snd ref_act guidance] in *.
  split; [exact Hr|]. split; [now rewrite Ht, <- Ht0|].
  assert (Hinit : guidance_events
                    (if armed_pub_ok su && actuator_pub_ok su then []
                     else [warnx " problem in initializing actuators"]) = [])
    by now destruct (armed_pub_ok su && actuator_pub_ok su).
  rewrite !guidance_events_app, Hsub, Hinit. cbn [guidance_events app].
  rewrite app_nil_r, in_app_iff. tauto.
Qed.

(** ** How often the thread publishes *)

Lemma loop_body_published_length it st :
  length (published (snd (loop_body it st)))
  = if (poll_ret it <? 0)%Z then 0%nat else 1%nat.
Proof.
  unfold loop_body.
  destruct (poll_ret it <? 0)%Z; [reflexivity|].
  pose proof (handle_poll_keeps it st) as (_ & _ & _ & Hp & _).
  destruct (handle_poll it st) as [st1 ev1]. cbn [fst snd] in Hp.
  pose proof (apply_param_update_keeps (param_check_update it) st1)
    as (_ & _ & _ & Hpu & _).
  destruct (apply_param_update (param_check_update it) st1) as [st2 ev2].
  cbn [fst snd] in Hpu.
  destruct (guidance_module _ _ _ _ _) as [[[ra s] g] evg]. cbn [snd].
  now rewrite !published_app, Hp, Hpu, published_guidance.
Qed.

Lemma loop_published_length its st :
  length (published (snd (loop its st))) = length (served its).
Proof.
  revert st. induction its as [|it its IH]; intros st; cbn [loop]; [reflexivity|].
  pose proof (loop_body_published_length it st) as Hb.
  destruct (loop_body it st) as [st1 ev1]. cbn [snd] in Hb.
  specialize (IH st1). destruct (loop its st1) as [st2 ev2]. cbn [snd] in *.
  rewrite published_app, length_app, Hb, IH. unfold served. cbn [List.filter].
  now destruct (poll_ret it <? 0)%Z.
Qed.

(** X19.  How often the thread publishes.  The actuator controls are
    sent out once when advertised, once per iteration whose [poll] did
    not fail, and once with every entry zero at the end; an iteration
    whose [poll] failed sends nothing; when the actuators could not be
    initialised only the first and the last are sent. *)
Theorem published_count g0 ns0 su its :
  length (published (snd (as_daemon_thread_main g0 ns0 su its)))
  = if armed_pub_ok su && actuator_pub_ok su then (2 + length (served its))%nat
    else 2%nat.
Proof.
  unfold as_daemon_thread_main.
  destruct (subscriptions su) as [[s1 s2] s3].
  pose proof (as_subscriber_events s1 s2 s3) as [Hsub _].
  destruct (as_subscriber s1 s2 s3) as [ok ev_sub]. cbn [snd] in Hsub.
  pose proof (apply_param_update_keeps (param_init su)
                {| strs := strs_at_start su; params := new_params (param_init su);
                   local_pos_r := {| x_race_cm := 0; y_race_cm := 0 |};
                   ref_act := {| alpha_star := 30; should_tack := false |};
                   guidance := g0; navigation := ns0 |}) as (_ & _ & _ & Hpu & _).
  destruct (apply_param_update (param_init su) _) as [st0 ev_param].
  cbn [fst snd] in Hpu.
  unfold actuators_init.
  set (st1 := {| strs := _ |}).
  pose proof (loop_published_length
                (if armed_pub_ok su && actuator_pub_ok su then its else []) st1) as Hl.
  destruct (loop _ st1) as [st2 ev_loop]. cbn [fst snd] in *.
  rewrite !published_app, Hsub, Hpu. cbn [published app length].
  rewrite !length_app, Hl.
  destruct (armed_pub_ok su && actuator_pub_ok su); cbn; lia.
Qed.

End MainLoopProperties.

End autonomous_sailing_properties.

Module parser_200WX_properties.

Import parser_200WX.

Section ParserProperties.

Context `{libc}.

(** ** C strings *)

Lemma c_string_no_nul (s : list ascii) : ~ In NUL s -> c_string s = s.
Proof.
  induction s as [|c s IH]; [reflexivity|]. intros Hn. cbn [c_string].
  destruct (Ascii.eqb_spec c NUL) as [->|Hc]; [exfalso; apply Hn; now left|].
  f_equal. apply IH. intros Hin. apply Hn. now right.
Qed.

Lemma c_string_stops (s t : list ascii) : c_string (c_string s ++ NUL :: t) = c_string s.
Proof.
  induction s as [|c s IH]; cbn [c_string app]; [reflexivity|].
  destruct (Ascii.eqb_spec c NUL) as [->|Hc]; [reflexivity|].
  cbn [c_string app]. destruct (Ascii.eqb_spec c NUL); [contradiction|]. now rewrite IH.
Qed.

Lemma c_string_length (s : list ascii) : (length (c_string s) <= length s)%nat.
Proof.
  induction s as [|c s IH]; cbn [c_string length]; [lia|].
  destruct (c =? NUL)%char; cbn [length]; lia.
Qed.

Lemma c_string_full (s : list ascii) : length (c_string s) = length s -> c_string s = s.
Proof.
  induction s as [|c s IH]; cbn [c_string length]; [reflexivity|].
  destruct (c =? NUL)%char; cbn [length]; [discriminate|].
  intros Hl. f_equal. apply IH. lia.
Qed.

Lemma chars_eqb_eq (s1 s2 : list ascii) : chars_eqb s1 s2 = true <-> s1 = s2.
Proof.
  revert s2. induction s1 as [|c1 s1 IH]; intros [|c2 s2]; cbn [chars_eqb];
    try (split; [discriminate|discriminate]); [tauto|].
  rewrite andb_true_iff, IH. destruct (Ascii.eqb_spec c1 c2) as [->|Hc].
  - split; [intros [_ ->]; reflexivity | intros [= ->]; tauto].
  - split; [intros [[=] _] | intros [= -> ->]; contradiction].
Qed.

(** The comparison that [find_string] makes at an index. *)
Lemma strcmp_strncpy (src str : list ascii) :
  ~ In NUL str ->
  (length str <= length src)%nat ->
  strcmp_is_zero (strncpy src (strlen str) ++ [NUL]) str = true
  <-> take (length str) src = str.
Proof.
  intros Hn Hl. unfold strcmp_is_zero, strncpy, strlen.
  rewrite (c_string_no_nul str Hn), chars_eqb_eq.
  rewrite <- app_assoc.
  assert (Hpad : exists t, replicate (length str - length (c_string (take (length str) src)))
                             NUL ++ [NUL] = NUL :: t).
  { destruct (length str - length (c_string (take (length str) src)))%nat;
      cbn; eauto. }
  destruct Hpad as [t ->]. rewrite c_string_stops.
  split.
  - intros Hc.
    assert (Hf : c_string (take (length str) src) = take (length str) src).
    { apply c_string_full. rewrite Hc, length_take. lia. }
    congruence.
  - intros Ht. rewrite Ht. now apply c_string_no_nul.
Qed.

Lemma c_string_app_nul (s : list ascii) : c_string (s ++ [NUL]) = c_string s.
Proof.
  induction s as [|c s IH]; cbn [c_string app]; [reflexivity|].
  destruct (c =? NUL)%char; [reflexivity|]. now rewrite IH.
Qed.

(** ** [find_string] *)

Lemma length_from (i : Z) (buffer : list ascii) :
  (0 <= i)%Z ->
  Z.of_nat (length (from i buffer)) = Z.max 0 (Z.of_nat (length buffer) - i).
Proof.
  intros Hi. unfold from. rewrite length_drop. lia.
Qed.

Lemma occurs_at_in_buffer (str buffer : list ascii) (i : Z) :
  occurs_at str buffer i ->
  (0 <= i /\ i + Z.of_nat (length str) <= Z.of_nat (length buffer))%Z.
Proof.
  intros [Hi Ht]. split; [lia|].
  apply (f_equal length) in Ht. rewrite length_take in Ht.
  pose proof (length_from i buffer ltac:(lia)). lia.
Qed.

Lemma find_string_loop_first (n : nat) (i : Z) (buffer str : list ascii) :
  ~ In NUL str ->
  (0 <= i)%Z ->
  (i + Z.of_nat n = Z.of_nat (length buffer) - Z.of_nat (length str) + 1)%Z ->
  let r := find_string_loop n i buffer str in
  (r = (-1)%Z /\
   forall j, (i <= j < i + Z.of_nat n)%Z -> ~ occurs_at str buffer j) \/
  ((i <= r < i + Z.of_nat n)%Z /\ occurs_at str buffer r /\
   forall j, (i <= j < r)%Z -> ~ occurs_at str buffer j).
Proof.
  intros Hn. revert i. induction n as [|n IH]; intros i Hi Hstop; cbn [find_string_loop].
  - left. split; [reflexivity|]. intros j Hj. lia.
  - assert (Hl : (length str <= length (from i buffer))%nat).
    { pose proof (length_from i buffer Hi). lia. }
    pose proof (strcmp_strncpy (from i buffer) str Hn Hl) as Hcmp.
    destruct (strcmp_is_zero _ str).
    + right. split; [lia|]. split; [split; [lia | now apply Hcmp]|].
      intros j Hj. lia.
    + assert (Hno : ~ occurs_at str buffer i).
      { intros [_ Ht]. apply Hcmp in Ht. discriminate Ht. }
      destruct (IH (i + 1)%Z ltac:(lia) ltac:(lia)) as [[Hr Hnone]|(Hr & Hocc & Hnone)].
      * left. split; [exact Hr|]. intros j Hj.
        destruct (Z.eq_dec j i) as [->|Hji]; [exact Hno | apply Hnone; lia].
      * right. split; [lia|]. split; [exact Hocc|]. intros j Hj.
        destruct (Z.eq_dec j i) as [->|Hji]; [exact Hno | apply Hnone; lia].
Qed.

Lemma find_string_first (start_index : Z) (buffer str : list ascii) :
  (0 <= start_index)%Z ->
  ~ In NUL str ->
  let r := find_string start_index buffer str in
  (r = (-1)%Z /\ forall j, (start_index <= j)%Z -> ~ occurs_at str buffer j) \/
  ((start_index <= r)%Z /\ occurs_at str buffer r /\
   forall j, (start_index <= j < r)%Z -> ~ occurs_at str buffer j).
Proof.
  intros Hs Hn. unfold find_string, strlen. rewrite (c_string_no_nul str Hn).
  set (stop_index := (Z.of_nat (length buffer) - Z.of_nat (length str) + 1)%Z).
  assert (Hout : forall j, (stop_index <= j)%Z -> ~ occurs_at str buffer j).
  { intros j Hj Hocc. apply occurs_at_in_buffer in Hocc. lia. }
  destruct (Z.le_gt_cases stop_index start_index) as [Hle|Hgt].
  - replace (Z.to_nat (stop_index - start_index)) with O by lia.
    left. split; [reflexivity|]. intros j Hj. apply Hout. lia.
  - destruct (find_string_loop_first (Z.to_nat (stop_index - start_index)) start_index
                buffer str Hn Hs ltac:(lia)) as [[Hr Hnone]|(Hr & Hocc & Hnone)].
    + left. split; [exact Hr|]. intros j Hj.
      destruct (Z.lt_ge_cases j stop_index); [apply Hnone; lia | apply Hout; lia].
    + right. split; [lia|]. split; [exact Hocc | exact Hnone].
Qed.

(** X20.  [find_string] returns the index of the first place at or after
    [start_index] where the string is in the buffer, and -1 exactly when
    there is none.  For a start index that is not negative and a string
    of at most 9 characters, the size of the array that the function
    copies into. *)
Theorem find_string_first_occurrence (start_index : Z) (buffer str : list ascii) :
  (0 <= start_index)%Z ->
  ~ In NUL str ->
  (length str <= 9)%nat ->
  let r := find_string start_index buffer str in
  (r = (-1)%Z /\ forall j, (start_index <= j)%Z -> ~ occurs_at str buffer j) \/
  ((start_index <= r)%Z /\ occurs_at str buffer r /\
   forall j, (start_index <= j < r)%Z -> ~ occurs_at str buffer j).
Proof.
  intros Hs Hn _. now apply find_string_first.
Qed.

(** ** [jump_to_next_coma] *)

Lemma next_coma_field_length (rest : list ascii) (i : Z) :
  next_coma rest i = (i + Z.of_nat (field_length rest))%Z.
Proof.
  revert i. induction rest as [|c rest IH]; intros i; cbn [next_coma field_length].
  - lia.
  - destruct (c =? ",")%char; [lia|]. rewrite IH. lia.
Qed.

Lemma field_length_spec (rest : list ascii) :
  (field_length rest <= length rest)%nat /\
  (forall j, (j < field_length rest)%nat -> rest !! j <> Some ","%char) /\
  ((field_length rest < length rest)%nat -> rest !! field_length rest = Some ","%char).
Proof.
  induction rest as [|c rest (IHl & IHn & IHc)]; cbn [field_length length].
  - split; [lia|]. split; intros; lia.
  - destruct (Ascii.eqb_spec c ","%char) as [->|Hc].
    + split; [lia|]. split; [intros j Hj; lia | reflexivity].
    + split; [lia|]. split.
      * intros [|j] Hj; cbn; [congruence | apply IHn; lia].
      * intros Hl. cbn. apply IHc. lia.
Qed.

Lemma byte_at_from (buffer : list ascii) (i : Z) (j : nat) :
  (0 <= i)%Z -> from i buffer !! j = byte_at buffer (i + Z.of_nat j).
Proof.
  intros Hi. unfold from, byte_at.
  destruct (Z.ltb_spec (i + Z.of_nat j) 0); [lia|].
  rewrite lookup_drop. f_equal. lia.
Qed.

Lemma jump_to_next_coma_field (start_index : Z) (buffer : list ascii) :
  jump_to_next_coma start_index buffer
  = let i := (start_index + Z.of_nat (field_length (from start_index buffer)))%Z in
    if (Z.of_nat (length buffer) <=? i)%Z then (-1)%Z else i.
Proof.
  unfold jump_to_next_coma. now rewrite next_coma_field_length.
Qed.

(** X21.  [jump_to_next_coma] returns the index of the first comma at or
    after [start_index], which is [start_index] itself when that byte
    is a comma, and -1 exactly when there is no comma from there to the
    end of the buffer. *)
Theorem jump_to_next_coma_first (start_index : Z) (buffer : list ascii) :
  (0 <= start_index)%Z ->
  let r := jump_to_next_coma start_index buffer in
  (r = (-1)%Z /\
   forall j, (start_index <= j)%Z -> byte_at buffer j <> Some ","%char) \/
  ((start_index <= r < Z.of_nat (length buffer))%Z /\
   byte_at buffer r = Some ","%char /\
   forall j, (start_index <= j < r)%Z -> byte_at buffer j <> Some ","%char).
Proof.
  intros Hs. rewrite jump_to_next_coma_field. cbv zeta.
  pose proof (field_length_spec (from start_index buffer)) as (Hl & Hn & Hc).
  pose proof (length_from start_index buffer Hs) as Hlen.
  set (k := field_length (from start_index buffer)) in *.
  destruct (Z.leb_spec (Z.of_nat (length buffer)) (start_index + Z.of_nat k)) as [Hend|Hin].
  - left. split; [reflexivity|]. intros j Hj.
    destruct (Z.lt_ge_cases j (Z.of_nat (length buffer))) as [Hjl|Hjl].
    + replace j with (start_index + Z.of_nat (Z.to_nat (j - start_index)))%Z by lia.
      rewrite <- byte_at_from by exact Hs. apply Hn. lia.
    + unfold byte_at. destruct (j <? 0)%Z; [discriminate|].
      rewrite lookup_ge_None_2 by lia. discriminate.
  - right. split; [lia|]. split.
    + rewrite <- byte_at_from by exact Hs. apply Hc. lia.
    + intros j Hj.
      replace j with (start_index + Z.of_nat (Z.to_nat (j - start_index)))%Z by lia.
      rewrite <- byte_at_from by exact Hs. apply Hn. lia.
Qed.

(** ** [f_extract_until_coma] *)

Lemma extract_loop_field (rest : list ascii) (i : Z) (counter : nat) (temp_char : list ascii) :
  (counter < SAFETY_COUNTER_EXTRACT)%nat ->
  extract_loop rest i counter temp_char
  = if (counter + field_length rest <? SAFETY_COUNTER_EXTRACT)%nat
    then Some ((i + Z.of_nat (field_length rest))%Z,
               temp_char ++ take (field_length rest) rest)
    else None.
Proof.
  revert i counter temp_char.
  induction rest as [|c rest IH]; intros i counter temp_char Hc;
    cbn [extract_loop field_length].
  - destruct (Nat.ltb_spec (counter + 0) SAFETY_COUNTER_EXTRACT); [|lia].
    cbn [take]. rewrite app_nil_r. do 2 f_equal. lia.
  - destruct (c =? ",")%char.
    + destruct (Nat.ltb_spec (counter + 0) SAFETY_COUNTER_EXTRACT); [|lia].
      cbn [take]. rewrite app_nil_r. do 2 f_equal. lia.
    + destruct (Nat.leb_spec SAFETY_COUNTER_EXTRACT (S counter)) as [Hfull|Hroom].
      * destruct (Nat.ltb_spec (counter + S (field_length rest)) SAFETY_COUNTER_EXTRACT);
          [lia | reflexivity].
      * rewrite IH by exact Hroom.
        replace (counter + S (field_length rest))%nat
          with (S counter + field_length rest)%nat by lia.
        destruct (S counter + field_length rest <? SAFETY_COUNTER_EXTRACT)%nat;
          [|reflexivity].
        cbn [take]. rewrite <- app_assoc. cbn [app]. do 2 f_equal. lia.
Qed.

Lemma f_extract_until_coma_field (index : Z) (buffer : list ascii) :
  (0 <= index)%Z ->
  f_extract_until_coma index buffer
  = let r := jump_to_next_coma index buffer in
    if (index <? r)%Z && (r <? index + Z.of_nat SAFETY_COUNTER_EXTRACT)%Z then
      (true, r, atof (c_string (take (Z.to_nat (r - index)) (from index buffer))))
    else (false, index, 0).
Proof.
  intros Hi. unfold f_extract_until_coma.
  rewrite extract_loop_field by (unfold SAFETY_COUNTER_EXTRACT; lia).
  rewrite jump_to_next_coma_field. cbv zeta.
  set (k := field_length (from index buffer)).
  cbn [Nat.add].
  destruct (Nat.ltb_spec k SAFETY_COUNTER_EXTRACT) as [Hk|Hk].
  - destruct (Z.leb_spec (Z.of_nat (length buffer)) (index + Z.of_nat k)) as [Hend|Hin].
    + rewrite orb_true_r.
      destruct (Z.ltb_spec index (-1)); [lia | reflexivity].
    + rewrite orb_false_r.
      destruct (Z.eqb_spec (index + Z.of_nat k) index) as [He|He].
      * destruct (Z.ltb_spec index (index + Z.of_nat k)); [lia | reflexivity].
      * destruct (Z.ltb_spec index (index + Z.of_nat k)); [|lia].
        destruct (Z.ltb_spec (index + Z.of_nat k)
                    (index + Z.of_nat SAFETY_COUNTER_EXTRACT)); [|lia].
        cbn [andb app]. rewrite c_string_app_nul.
        replace (Z.to_nat (index + Z.of_nat k - index)) with k by lia.
        reflexivity.
  - destruct (Z.leb_spec (Z.of_nat (length buffer)) (index + Z.of_nat k)) as [Hend|Hin].
    + destruct (Z.ltb_spec index (-1)); [lia | reflexivity].
    + destruct (Z.ltb_spec (index + Z.of_nat k)
                  (index + Z.of_nat SAFETY_COUNTER_EXTRACT)); [lia|].
      now rewrite andb_false_r.
Qed.

(** X22.  [f_extract_until_coma] succeeds exactly when the first comma
    at or after the index is after it and less than 15 bytes away: on
    an empty field, on a field of 15 bytes or more, and when no comma
    follows, it fails, leaves the index as it was and gives 0.  On
    success the index is left on that comma and the value is [atof] of
    the bytes of the field.  [d_extract_until_coma] does the same. *)
Theorem extract_until_coma_field (index : Z) (buffer : list ascii) :
  (0 <= index)%Z ->
  let r := jump_to_next_coma index buffer in
  f_extract_until_coma index buffer
  = (if (index <? r)%Z && (r <? index + 15)%Z then
       (true, r, atof (c_string (take (Z.to_nat (r - index)) (from index buffer))))
     else (false, index, 0)) /\
  d_extract_until_coma index buffer = f_extract_until_coma index buffer.
Proof.
  intros Hi. split; [now apply f_extract_until_coma_field | reflexivity].
Qed.

(** ** [nmea_ndeg2degree] *)

Lemma Qfloor_unique (x : Q) (d : Z) :
  inject_Z d <= x -> x < inject_Z d + 1 -> Qfloor x = d.
Proof.
  intros Hlo Hhi.
  pose proof (Qfloor_resp_le _ _ Hlo) as H1. rewrite Qfloor_Z in H1.
  assert (H2 : inject_Z (Qfloor x) < inject_Z (d + 1)).
  { pose proof (Qfloor_le x). rewrite inject_Z_plus. change (inject_Z 1) with 1. lra. }
  rewrite <- Zlt_Qlt in H2. lia.
Qed.

Lemma float_to_int32_floor (x : Q) (d : Z) :
  (0 <= d <= INT32_MAX)%Z -> inject_Z d <= x -> x < inject_Z d + 1 ->
  float_to_int32 x = d.
Proof.
  intros Hd Hlo Hhi. unfold float_to_int32.
  assert (H0 : 0 <= inject_Z d) by (change 0 with (inject_Z 0); rewrite <- Zle_Qle; lia).
  rewrite Qtruncate_nonneg by lra.
  rewrite (Qfloor_unique x d Hlo Hhi). unfold INT32_MIN, INT32_MAX in *. lia.
Qed.

Lemma float_to_int32_ceiling (x : Q) (d : Z) :
  (0 <= d <= INT32_MAX)%Z -> inject_Z d <= - x -> - x < inject_Z d + 1 ->
  float_to_int32 x = (- d)%Z.
Proof.
  intros Hd Hlo Hhi. unfold float_to_int32.
  assert (H0 : 0 <= inject_Z d) by (change 0 with (inject_Z 0); rewrite <- Zle_Qle; lia).
  rewrite Qtruncate_nonpos by lra. unfold Qceiling.
  rewrite (Qfloor_unique (- x) d Hlo Hhi). unfold INT32_MIN, INT32_MAX in *. lia.
Qed.

(** X23.  On a value [ddmm.mmmm] (degrees times 100 plus minutes, with
    the minutes in [0, 100) and the degrees within the [int] range)
    [nmea_ndeg2degree] returns the degrees plus the minutes over 60; on
    the opposite value it returns the opposite, the cast to [int]
    rounding toward zero.  Exact arithmetic. *)
Theorem nmea_ndeg2degree_minutes (d : Z) (m : Q) :
  (0 <= d <= INT32_MAX)%Z -> 0 <= m -> m < 100 ->
  nmea_ndeg2degree (inject_Z d * 100 + m) == inject_Z d + m / 60 /\
  nmea_ndeg2degree (- (inject_Z d * 100 + m)) == - (inject_Z d + m / 60).
Proof.
  intros Hd Hm0 Hm1. unfold nmea_ndeg2degree.
  assert (Hpos : float_to_int32 ((inject_Z d * 100 + m) / 100) = d).
  { apply float_to_int32_floor; [exact Hd| |];
      unfold Qdiv; change (/ 100) with (1 # 100); lra. }
  assert (Hneg : float_to_int32 (- (inject_Z d * 100 + m) / 100) = (- d)%Z).
  { apply float_to_int32_ceiling; [exact Hd| |];
      unfold Qdiv; change (/ 100) with (1 # 100); lra. }
  rewrite Hpos, Hneg, inject_Z_opp. unfold Qdiv. split; ring.
Qed.

(** ** [hdt_parser] *)

Lemma HCHDT_no_nul : ~ In NUL HCHDT.
Proof.
  cbn. intros [Hc|[Hc|[Hc|[Hc|[Hc|[]]]]]]; discriminate Hc.
Qed.

Lemma f_extract_until_coma_index (index : Z) (buffer : list ascii) :
  (0 <= index)%Z -> (index <= (f_extract_until_coma index buffer).1.2)%Z.
Proof.
  intros Hi. rewrite f_extract_until_coma_field by exact Hi. cbv zeta.
  destruct (Z.ltb_spec index (jump_to_next_coma index buffer)); cbn [andb];
    [|cbn; lia].
  destruct (_ <? _)%Z; cbn; lia.
Qed.

Lemma hdt_parser_loop_total (fuel : nat) (i : Z) (buffer : list ascii) (yaw0 yaw : Q) :
  (0 <= i)%Z ->
  (Z.of_nat (length buffer) - i <= Z.of_nat fuel + MIN_BYTE_FOR_PARSING_SHORT_MSG)%Z ->
  parsed_heading buffer yaw0 yaw ->
  exists y, hdt_parser_loop fuel i buffer yaw = Some y /\ parsed_heading buffer yaw0 y.
Proof.
  revert i yaw. induction fuel as [|fuel IH]; intros i yaw Hi Hfuel Hyaw;
    cbn [hdt_parser_loop].
  - destruct (Z.ltb_spec MIN_BYTE_FOR_PARSING_SHORT_MSG (Z.of_nat (length buffer) - i));
      [lia|]. eauto.
  - destruct (Z.ltb_spec MIN_BYTE_FOR_PARSING_SHORT_MSG (Z.of_nat (length buffer) - i));
      [|eauto].
    destruct (find_string_first i buffer HCHDT Hi HCHDT_no_nul)
      as [[Hr _]|(Hr & Hocc & _)].
    + rewrite Hr. cbn. eauto.
    + set (r := find_string i buffer HCHDT) in *.
      destruct (Z.eqb_spec r (-1)); [lia|].
      pose proof (f_extract_until_coma_index (r + 6) buffer ltac:(lia)) as Hidx.
      destruct (f_extract_until_coma (r + 6) buffer) as [[found j] heading] eqn:Ex.
      cbn [fst snd] in Hidx.
      apply IH; [lia | unfold MIN_BYTE_FOR_PARSING_SHORT_MSG in *; lia |].
      destruct found; [|exact Hyaw].
      right. exists r, j. split; [exact Hocc | exact Ex].
Qed.

Lemma hdt_parser_loop_more_fuel (fuel extra : nat) (i : Z) (buffer : list ascii) (yaw y : Q) :
  hdt_parser_loop fuel i buffer yaw = Some y ->
  hdt_parser_loop (fuel + extra) i buffer yaw = Some y.
Proof.
  revert i yaw. induction fuel as [|fuel IH]; intros i yaw.
  - cbn [hdt_parser_loop]. destruct extra; cbn [Nat.add hdt_parser_loop];
      destruct (_ <? _)%Z; try discriminate; trivial.
  - cbn [Nat.add hdt_parser_loop]. destruct (_ <? _)%Z; [|trivial].
    destruct (_ =? -1)%Z; [trivial|].
    destruct (f_extract_until_coma _ buffer) as [[found j] heading].
    apply IH.
Qed.

(** X24.  [hdt_parser] ends on every buffer, and the bound on its
    iterations is not felt: more iterations give the same result.  The
    yaw it leaves is the yaw that was there, or the value that
    [f_extract_until_coma] read 6 bytes after a place where [HCHDT] is
    in the buffer; so a buffer without [HCHDT] leaves the yaw as it
    was. *)
Theorem hdt_parser_sound (buffer : list ascii) (yaw : Q) :
  exists y,
    hdt_parser buffer yaw = Some y /\
    (forall extra, hdt_parser_loop (length buffer + extra) 0 buffer yaw = Some y) /\
    parsed_heading buffer yaw y /\
    ((forall k, ~ occurs_at HCHDT buffer k) -> y = yaw).
Proof.
  destruct (hdt_parser_loop_total (length buffer) 0 buffer yaw yaw)
    as (y & Hy & Hp); [lia | unfold MIN_BYTE_FOR_PARSING_SHORT_MSG; lia | now left |].
  exists y. split; [exact Hy|]. split; [|split; [exact Hp|]].
  - intros extra. now apply hdt_parser_loop_more_fuel.
  - intros Hnone. destruct Hp as [Hp|(k & j & Hocc & _)]; [exact Hp|].
    now destruct (Hnone k).
Qed.

End ParserProperties.

End parser_200WX_properties.

(** * The properties on the bench values *)

#[local] Existing Instance bench_settings.
#[local] Existing Instance bench_libm.

(** ** C1 *)

(** C1, counterexample.  On the bench tack, with readings on which the
    tack is completed, the cycle is entered with [should_tack] set while tacking and yet
    publishes a rudder command of 0 (the PI output with its default
    gains) where the helmsman commands 0.85, and a sail command of 0.14
    where the helmsman commands about 0.09: the helmsman commands are not
    what is published. *)
Lemma tack_completion_cycle_counterexample :
  should_tack bench_ref_tack = true /\
  tack_data.boat_is_tacking (tack_data bench_tacking_state) = true /\
  is_tack_completed bench_topics_completed (tack_data bench_tacking_state) = true /\
  ~ helmsman_published bench_ref_tack bench_param_qgc bench_topics_completed
      bench_controller_data bench_tacking_state /\
  fst (helmsman_commands bench_ref_tack bench_controller_data) == 0.85 /\
  published_rudder
    (guidance_module bench_ref_tack bench_param_qgc bench_topics_completed
       bench_controller_data bench_tacking_state) == 0 /\
  published_sail
    (guidance_module bench_ref_tack bench_param_qgc bench_topics_completed
       bench_controller_data bench_tacking_state) == 0.14.
Proof.
  repeat split; try reflexivity.
  intros [Hr _]. vm_compute in Hr. discriminate Hr.
Qed.

Lemma tacking_cycle_published_witness :
  should_tack bench_ref_tack = true /\
  tack_data.boat_is_tacking (tack_data bench_tacking_state) = true /\
  is_tack_completed bench_topics_turning (tack_data bench_tacking_state) = false /\
  is_tack_completed bench_topics_completed (tack_data bench_tacking_state) = true /\
  helmsman_published bench_ref_tack bench_param_qgc bench_topics_turning
    bench_controller_data bench_tacking_state /\
  tracking_published bench_ref_tack bench_param_qgc bench_topics_completed
    bench_controller_data bench_tacking_state.
Proof.
  split; [reflexivity|]. split; [reflexivity|].
  split; [reflexivity|]. split; [reflexivity|]. split.
  - exact (proj1 (proj1 (tacking_cycle_published bench_ref_tack bench_param_qgc
                           bench_topics_turning bench_controller_data
                           bench_tacking_state eq_refl eq_refl) eq_refl)).
  - exact (proj1 (proj2 (tacking_cycle_published bench_ref_tack bench_param_qgc
                           bench_topics_completed bench_controller_data
                           bench_tacking_state eq_refl eq_refl) eq_refl)).
Defined.

(** ** C2 *)

(** With the sail controller in charge (a manual sail command of -1)
    and an apparent wind angle of 3 rad, after [set_sail_positions(0)]. *)
Lemma sail_command_nan_after_zero_positions_witness :
  sail_servo bench_param_qgc < 0 /\
  ieee.tracking_sail (ieee.finite (sail_servo bench_param_qgc))
    (ieee.finite (get_app_wind bench_controller_data)) (ieee.set_sail_positions 0)
  = Some ieee.nan.
Proof.
  assert (Hs : sail_servo bench_param_qgc < 0) by reflexivity.
  split; [exact Hs|].
  exact (proj1 (proj2 (sail_command_nan_after_zero_positions
                         (sail_servo bench_param_qgc)
                         (get_app_wind bench_controller_data) Hs))).
Defined.

(** With four sail positions the two models agree on that cycle: the
    sector is 3 and the sail command is a quarter of the limit. *)
Example ieee_tracking_sail_bench :
  ieee.tracking_sail (ieee.finite (sail_servo bench_param_qgc))
    (ieee.finite (get_app_wind bench_controller_data)) (ieee.set_sail_positions 4)
  = Some (ieee.finite
            (sail_saturation (sail_controller bench_controller_data
                                (set_sail_positions 4)))) /\
  sail_controller bench_controller_data (set_sail_positions 4) == SAIL_SATURATION / 4.
Proof.
  split; [|reflexivity].
  rewrite ieee_set_sail_positions_exact by discriminate.
  unfold ieee.tracking_sail.
  rewrite ieee_sail_controller_exact;
    [|intros Hq; discriminate Hq | split; discriminate].
  cbn [ieee.lt ieee.gt]. change (sail_servo bench_param_qgc <? 0) with true.
  cbn [option_map]. now rewrite (proj2 (ieee_saturations_exact _)).
Qed.

(** On a cycle far from the reference, with a proportional gain of 1
    and a manual sail command of 5, the PI asks for a rudder command of
    29.75: both commands are published at their limit. *)
Example guidance_module_saturates_bench :
  let out :=
    guidance_module bench_ref_track bench_param_override bench_topics
      bench_controller_data bench_tracking_state in
  fst (tracking_commands bench_ref_track bench_param_override
         bench_controller_data bench_tracking_state) == 29.75 /\
  published_rudder out == RUDDER_SATURATION /\
  published_sail out == SAIL_SATURATION.
Proof.
  repeat split.
Qed.

(** ** C3 *)

(** Turning right from yaw 1 with a stop value of 1, a yaw of exactly 0
    is extended to [2 pi] by the code, so the condition holds; with the
    extension of negative yaws only it would not hold. *)
Example yaw_stop_tack_zero_yaw :
  ~ tack_data.tack_rudder_command bench_tack_right > 0 /\
  nth2 (tack_data.yaw_before_tack bench_tack_right) i0 > 0 /\
  yaw_stop_tack 0 i0 bench_tack_right = true /\
  ~ extended_yaw_right_spec 0 - nth2 (tack_data.yaw_before_tack bench_tack_right) i0
    >= tack_data.yaw_stop_tack bench_tack_right /\
  ~ yaw_stop_tack_agrees extended_yaw_right_spec bench_tack_right i0 0.
Proof.
  assert (Hc : ~ tack_data.tack_rudder_command bench_tack_right > 0)
    by (intros Hc; discriminate Hc).
  assert (Hb : nth2 (tack_data.yaw_before_tack bench_tack_right) i0 > 0)
    by reflexivity.
  assert (Hn : ~ extended_yaw_right_spec 0
                 - nth2 (tack_data.yaw_before_tack bench_tack_right) i0
                 >= tack_data.yaw_stop_tack bench_tack_right)
    by (intros Hn; apply Hn; reflexivity).
  repeat split; try assumption; try reflexivity.
  intros [_ Hright]. apply Hn, (Hright Hc Hb). reflexivity.
Qed.

(** A tack to the left (the helmsman law from port to starboard haul is
    chosen, its rudder command is not negative) started by the module at
    a yaw of -170 degrees with a stop value of 60 degrees: the yaw
    condition holds at 179 degrees. *)
Lemma yaw_stop_tack_left_sweep_witness :
  let g :=
    run_calls guidance_init
      [call_set_stop_tack 2 60;
       call_guidance_module bench_ref_tack bench_param_qgc
         bench_topics_heading_south bench_controller_data] in
  reachable g /\
  tack_data.boat_is_tacking (tack_data g) = true /\
  helmsman_commands bench_ref_tack bench_controller_data
  = helmsman_tack_p2s (get_alpha_yaw bench_controller_data) /\
  nth2 (tack_data.yaw_before_tack (tack_data g)) i0 == deg (-170) /\
  tack_data.yaw_stop_tack (tack_data g) == deg 60 /\
  yaw_stop_tack (deg 179) i0 (tack_data g) = true /\
  ~ extended_yaw_left_spec (deg 179) - deg (-170) <= - deg 60.
Proof.
  intros g.
  assert (Hr : reachable g) by apply reachable_run_calls, reachable_init.
  assert (Hb : nth2 (tack_data.yaw_before_tack (tack_data g)) i0 == deg (-170))
    by reflexivity.
  assert (Ht : tack_data.yaw_stop_tack (tack_data g) == deg 60) by reflexivity.
  split; [exact Hr|]. split; [reflexivity|]. split; [reflexivity|].
  split; [exact Hb|]. split; [exact Ht|].
  exact (proj2 (yaw_stop_tack_left_sweep g i0 Hr Hb Ht)).
Defined.

(** ** C4 *)

(** C4.  On the cycle that starts a tack, [tack_action] should set
    [boat_is_tacking], save the roll and yaw angles of both sources and
    record the turn direction, the sign of the stored tack rudder
    command, from the sign of [- alpha_star].  Evaluated on the initial
    statics: whether the boat comes from the starboard haul
    ([- alpha_star > 0]) or from the port haul ([- alpha_star < 0]), the
    flag is set and the four angles are saved, but the stored tack rudder
    command is left at 0, so its sign does not tell the two directions
    apart. *)
Lemma tack_action_start_direction_not_recorded :
  let start ref_act :=
    (tack_action ref_act bench_topics_heeled bench_controller_data tack_data.init).1.1.2 in
  - alpha_star bench_ref_tack_from_starboard > 0 /\
  - alpha_star bench_ref_tack < 0 /\
  start bench_ref_tack_from_starboard = start bench_ref_tack /\
  start bench_ref_tack_from_starboard
  = {| tack_data.boat_is_tacking := true;
       tack_data.tack_rudder_command := 0;
       tack_data.roll_before_tack := (0.25, 0.5);
       tack_data.yaw_before_tack := (-1.5, -1.25);
       tack_data.roll_stop_tack := 2;
       tack_data.yaw_stop_tack := 1.04 |}.
Proof.
  repeat split.
Qed.

(** ** C5 *)

Lemma tack_rudder_command_stays_zero_witness :
  let g :=
    run_calls guidance_init
      [call_set_stop_tack 2 60;
       call_guidance_module bench_ref_tack_from_starboard bench_param_qgc
         bench_topics_heeled bench_controller_data] in
  reachable g /\
  tack_data.boat_is_tacking (tack_data g) = true /\
  tack_data.tack_rudder_command (tack_data g) = 0 /\
  forall angle index_yaw,
    yaw_stop_tack angle index_yaw (tack_data g)
    = yaw_stop_tack_right angle index_yaw (tack_data g).
Proof.
  intros g.
  assert (Hr : reachable g) by apply reachable_run_calls, reachable_init.
  split; [exact Hr|]. split; [reflexivity|].
  exact (tack_rudder_command_stays_zero g Hr).
Defined.

(** ** C6 *)

Lemma roll_stop_tack_iff_witness :
  ~ tack_data.roll_stop_tack bench_tack_right == 0 /\
  nth2 (tack_data.roll_before_tack bench_tack_right) i1 == 0 /\
  roll_stop_tack_spec bench_tack_right i0 (-0.5) /\
  roll_stop_tack (-0.5) i0 bench_tack_right = true /\
  roll_stop_tack (-0.5) i1 bench_tack_right = false.
Proof.
  assert (Hr : ~ tack_data.roll_stop_tack bench_tack_right == 0)
    by (intros Hr; discriminate Hr).
  assert (Hs : roll_stop_tack_spec bench_tack_right i0 (-0.5))
    by (left; split; [reflexivity | discriminate]).
  assert (Hz : nth2 (tack_data.roll_before_tack bench_tack_right) i1 == 0)
    by reflexivity.
  split; [exact Hr|]. split; [exact Hz|]. split; [exact Hs|]. split.
  - exact (proj2 (proj1 (roll_stop_tack_iff bench_tack_right i0 (-0.5)) Hr) Hs).
  - exact (proj2 (roll_stop_tack_iff bench_tack_right i1 0) Hz (-0.5)).
Defined.

(** ** C7 *)



(** ** C9 *)

Lemma geo_to_race_rotation_witness :
  let r := ned_to_race_s bench_navigation_state in
  let N := inject_Z (geo_to_ned bench_navigation_state bench_gps).1.1 in
  let E := inject_Z (geo_to_ned bench_navigation_state bench_gps).1.2 in
  let X := race_x_spec (ned_to_race_s.cos_mwd r) (ned_to_race_s.sin_mwd r) N E
             (inject_Z (ned_to_race_s.n0_dm r)) (inject_Z (ned_to_race_s.e0_dm r)) in
  let Y := race_y_spec (ned_to_race_s.cos_mwd r) (ned_to_race_s.sin_mwd r) N E
             (inject_Z (ned_to_race_s.n0_dm r)) (inject_Z (ned_to_race_s.e0_dm r)) in
  (INT32_MIN <= Qtruncate X <= INT32_MAX)%Z /\
  (INT32_MIN <= Qtruncate Y <= INT32_MAX)%Z /\
  Qabs (X - inject_Z (geo_to_race bench_navigation_state bench_gps).1) < 1 /\
  Qabs (Y - inject_Z (geo_to_race bench_navigation_state bench_gps).2) < 1.
Proof.
  intros r N E X Y.
  assert (Hx : (INT32_MIN <= Qtruncate X <= INT32_MAX)%Z)
    by (vm_compute; split; discriminate).
  assert (Hy : (INT32_MIN <= Qtruncate Y <= INT32_MAX)%Z)
    by (vm_compute; split; discriminate).
  split; [exact Hx|]. split; [exact Hy|].
  destruct (geo_to_race_rotation bench_navigation_state bench_gps)
    as (Hg & HX & HY).
  split.
  - exact (proj2 (HX Hx)).
  - exact (proj2 (HY Hy)).
Defined.

(** With the stand-ins, the bench fix lies 44 dm north of the NED origin
    and the top mark 175 dm north and 30 dm east; the race coordinates
    are (128, 36) dm. *)
Example geo_to_race_bench :
  geo_to_ned bench_navigation_state bench_gps = (44, 0, 43)%Z /\
  ned_to_race_s.n0_dm (ned_to_race_s bench_navigation_state) = 175%Z /\
  ned_to_race_s.e0_dm (ned_to_race_s bench_navigation_state) = 30%Z /\
  geo_to_race bench_navigation_state bench_gps = (128, 36)%Z.
Proof.
  vm_compute. repeat split.
Qed.

(** ** C10 *)

Lemma sail_controller_quantized_witness :
  let cd :=
    {| get_alpha := 0; get_alpha_yaw := 0; get_app_wind := M_PI_F / 4;
       get_twd := 0; hrt_absolute_time := 0 |} in
  (0 < 4)%Z /\
  (Qfloor (Qabs (get_app_wind cd) / (M_PI_F / inject_Z 4)) <= INT32_MAX)%Z /\
  sail_controller cd (set_sail_positions 4) == sail_trim_spec 4 (M_PI_F / 4) /\
  sail_controller cd (set_sail_positions 4) == SAIL_SATURATION - SAIL_SATURATION / 4.
Proof.
  intros cd.
  assert (Hfit : (Qfloor (Qabs (get_app_wind cd) / (M_PI_F / inject_Z 4))
                  <= INT32_MAX)%Z) by discriminate.
  split; [reflexivity|]. split; [exact Hfit|].
  destruct (sail_controller_quantized 4 cd eq_refl Hfit) as [Hspec Hquarter].
  split; [exact Hspec|].
  exact (proj2 (Hquarter eq_refl (Qeq_refl _))).
Defined.

(** ** Helmsman rudder range *)

Lemma helmsman_rudder_range_witness :
  0 <= RUDDER_45_LEFT /\
  (0 <= fst (helmsman_tack_p2s 0.2) <= RUDDER_45_LEFT) /\
  (- RUDDER_45_LEFT <= fst (helmsman_tack_s2p 0.2) <= 0).
Proof.
  assert (Hr : 0 <= RUDDER_45_LEFT) by discriminate.
  split; [exact Hr|].
  exact (helmsman_rudder_range 0.2 Hr).
Defined.

(** ** Sail controller *)

Lemma sail_controller_monotone_witness :
  let cd1 :=
    {| get_alpha := 0; get_alpha_yaw := 0; get_app_wind := -1;
       get_twd := 0; hrt_absolute_time := 0 |} in
  let sd := set_sail_positions 4 in
  0 < sail_controller_data.position_quantum sd /\
  0 <= sail_controller_data.command_quantum sd /\
  Qabs (get_app_wind cd1) <= Qabs (get_app_wind bench_controller_data) /\
  (Qfloor (Qabs (get_app_wind bench_controller_data)
           / sail_controller_data.position_quantum sd) <= INT32_MAX)%Z /\
  sail_controller bench_controller_data sd <= sail_controller cd1 sd <= SAIL_SATURATION.
Proof.
  intros cd1 sd.
  assert (Hq : 0 < sail_controller_data.position_quantum sd) by reflexivity.
  assert (Hc : 0 <= sail_controller_data.command_quantum sd) by discriminate.
  assert (Ha : Qabs (get_app_wind cd1) <= Qabs (get_app_wind bench_controller_data))
    by discriminate.
  assert (Hfit : (Qfloor (Qabs (get_app_wind bench_controller_data)
                          / sail_controller_data.position_quantum sd)
                  <= INT32_MAX)%Z) by discriminate.
  split; [exact Hq|]. split; [exact Hc|]. split; [exact Ha|]. split; [exact Hfit|].
  exact (sail_controller_monotone cd1 bench_controller_data sd Hq Hc Ha Hfit).
Defined.

Lemma sail_controller_range_witness :
  0 <= SAIL_SATURATION /\
  (0 < 4 <= INT32_MAX)%Z /\
  Qabs (get_app_wind bench_controller_data) <= M_PI_F /\
  0 <= sail_controller bench_controller_data (set_sail_positions 4) <= SAIL_SATURATION.
Proof.
  assert (Hs : 0 <= SAIL_SATURATION) by discriminate.
  assert (Hn : (0 < 4 <= INT32_MAX)%Z) by (split; [reflexivity | discriminate]).
  assert (Ha : Qabs (get_app_wind bench_controller_data) <= M_PI_F) by discriminate.
  split; [exact Hs|]. split; [exact Hn|]. split; [exact Ha|].
  exact (sail_controller_range 4 bench_controller_data Hs Hn Ha).
Defined.

(** ** PI controller *)

Lemma pi_run_conditional_sum_witness :
  let pd' := snd (pi_run bench_pi_conditional bench_pi_calls) in
  pi_rudder_data.use_conditional bench_pi_conditional = true /\
  pi_rudder_data.sum_error_pi pd'
  == pi_rudder_data.sum_error_pi bench_pi_conditional + sum_errors bench_pi_calls /\
  pi_rudder_data.use_conditional pd' = true /\
  length (fst (pi_run bench_pi_conditional bench_pi_calls)) = length bench_pi_calls.
Proof.
  intros pd'. split; [reflexivity|].
  exact (pi_run_conditional_sum bench_pi_conditional bench_pi_calls eq_refl).
Defined.

(** The last command 2 was above the limit 0.9: with an error of 1 and
    [kaw] 0.5 the sum goes from 3 to 3 + 1 - 0.5 * 1.1. *)
Lemma pi_controller_anti_wind_up_witness :
  let sum' := pi_rudder_data.sum_error_pi (snd (pi_controller 1 0 bench_pi_normal)) in
  0 <= RUDDER_SATURATION /\
  pi_rudder_data.use_conditional bench_pi_normal = false /\
  RUDDER_SATURATION < pi_rudder_data.last_command bench_pi_normal /\
  sum' == 3 + (1 - 0) - 0.5 * (2 - RUDDER_SATURATION) /\
  fst (pi_controller 1 0 bench_pi_normal) == 1 * (1 - 0) + 0 * sum'.
Proof.
  intros sum'.
  assert (Hs : 0 <= RUDDER_SATURATION) by discriminate.
  assert (Hl : RUDDER_SATURATION < pi_rudder_data.last_command bench_pi_normal)
    by reflexivity.
  split; [exact Hs|]. split; [reflexivity|]. split; [exact Hl|].
  pose (Hw := pi_controller_anti_wind_up 1 0 bench_pi_normal Hs eq_refl).
  split.
  - exact (proj1 (proj2 Hw) Hl).
  - exact (proj2 (proj2 (proj2 Hw))).
Defined.

(** ** Completion of a tack *)

Lemma is_tack_completed_roll_changed_sign_witness :
  0 < tack_data.roll_stop_tack bench_tack_right /\
  is_tack_completed bench_topics_completed bench_tack_right = true /\
  (fst (tack_data.roll_before_tack bench_tack_right)
   * roll (att bench_topics_completed) < 0 \/
   snd (tack_data.roll_before_tack bench_tack_right)
   * roll_r (boat_weather_station bench_topics_completed) < 0).
Proof.
  assert (Hs : 0 < tack_data.roll_stop_tack bench_tack_right) by reflexivity.
  assert (Hc : is_tack_completed bench_topics_completed bench_tack_right = true)
    by reflexivity.
  split; [exact Hs|]. split; [exact Hc|].
  exact (is_tack_completed_roll_changed_sign bench_topics_completed bench_tack_right
           Hs Hc).
Defined.

(** The boat has turned left by 1.5 rad, more than the stop value, and
    heels on the other side: the tack is not seen as completed. *)
Lemma is_tack_completed_left_turn_unseen_witness :
  let td := bench_tack_left_unrecorded in
  let strs := bench_topics_turned_left in
  tack_data.tack_rudder_command td <= 0 /\
  0 < tack_data.yaw_stop_tack td /\
  fst (tack_data.yaw_before_tack td) <= 0 /\
  snd (tack_data.yaw_before_tack td) <= 0 /\
  yaw (att strs) <= fst (tack_data.yaw_before_tack td) /\
  heading_tn (boat_weather_station strs) <= snd (tack_data.yaw_before_tack td) /\
  is_tack_completed strs td = false.
Proof.
  intros td strs.
  assert (Hc : tack_data.tack_rudder_command td <= 0) by discriminate.
  assert (Hs : 0 < tack_data.yaw_stop_tack td) by reflexivity.
  assert (Hb0 : fst (tack_data.yaw_before_tack td) <= 0) by discriminate.
  assert (Hb1 : snd (tack_data.yaw_before_tack td) <= 0) by discriminate.
  assert (Ha0 : yaw (att strs) <= fst (tack_data.yaw_before_tack td)) by discriminate.
  assert (Ha1 : heading_tn (boat_weather_station strs)
                <= snd (tack_data.yaw_before_tack td)) by discriminate.
  repeat (split; [assumption|]).
  exact (is_tack_completed_left_turn_unseen strs td Hc Hs Hb0 Hb1 Ha0 Ha1).
Defined.

(** ** One cycle and many *)

Lemma guidance_module_tracking_cycle_witness :
  let out :=
    guidance_module bench_ref_track bench_param_override bench_topics
      bench_controller_data bench_tracking_state in
  should_tack bench_ref_track = false /\
  out.1.1.1 = bench_ref_track /\
  out.2 = [] /\
  published_rudder out
  = rudder_saturation
      (fst (tracking_commands bench_ref_track bench_param_override
              bench_controller_data bench_tracking_state)).
Proof.
  intros out. split; [reflexivity|].
  pose (Hw := guidance_module_tracking_cycle bench_ref_track bench_param_override
                bench_topics bench_controller_data bench_tracking_state eq_refl).
  split; [exact (proj1 Hw)|]. split; [exact (proj1 (proj2 Hw))|].
  exact (proj1 (proj2 (proj2 (proj2 (proj2 Hw))))).
Defined.

Lemma guidance_module_starts_tack_witness :
  let out :=
    guidance_module bench_ref_tack_from_starboard bench_param_qgc bench_topics_heeled
      bench_controller_data bench_tracking_state in
  should_tack bench_ref_tack_from_starboard = true /\
  tack_data.boat_is_tacking (tack_data bench_tracking_state) = false /\
  tack_data.boat_is_tacking (tack_data out.1.2) = true /\
  tack_data.roll_before_tack (tack_data out.1.2) = (0.25, 0.5) /\
  tack_data.yaw_before_tack (tack_data out.1.2) = (-1.5, -1.25).
Proof.
  intros out. split; [reflexivity|]. split; [reflexivity|].
  pose (Hw := guidance_module_starts_tack bench_ref_tack_from_starboard bench_param_qgc
                bench_topics_heeled bench_controller_data bench_tracking_state
                eq_refl eq_refl).
  split; [exact (proj1 (proj2 (proj2 Hw)))|].
  split; [exact (proj1 (proj2 (proj2 (proj2 Hw))))|].
  exact (proj1 (proj2 (proj2 (proj2 (proj2 Hw))))).
Defined.

(** The tack starts with the boat upright; on the next cycle the boat
    heels on the other side and has turned by 1.5 rad, and the tack goes
    on. *)
Lemma tack_from_zero_roll_never_ends_witness :
  let out :=
    guidance_cycles bench_ref_tack bench_topics bench_tracking_state
      [bench_cycle_upright; bench_cycle_heeled; bench_cycle_heeled] in
  should_tack bench_ref_tack = true /\
  tack_data.boat_is_tacking (tack_data bench_tracking_state) = false /\
  roll (cycle_att bench_cycle_upright) == 0 /\
  roll_r (cycle_boat_weather_station bench_cycle_upright) == 0 /\
  should_tack out.1.1.1 = true /\
  tack_data.boat_is_tacking (tack_data out.1.2) = true /\
  out.2 = [].
Proof.
  intros out.
  do 4 (split; [reflexivity|]).
  exact (tack_from_zero_roll_never_ends bench_ref_tack bench_topics bench_tracking_state
           bench_cycle_upright [bench_cycle_heeled; bench_cycle_heeled]
           eq_refl eq_refl (Qeq_refl 0) (Qeq_refl 0)).
Defined.

(** ** The thread *)


(** ** The parser *)

(** The header is found after the three bytes that precede it. *)
Lemma find_string_first_occurrence_witness :
  let r := parser_200WX.find_string 0 bench_buf_long parser_200WX.HCHDT in
  (0 <= 0)%Z /\
  ~ In parser_200WX.NUL parser_200WX.HCHDT /\
  (length parser_200WX.HCHDT <= 9)%nat /\
  r = 3%Z /\
  ((r = (-1)%Z /\
    forall j, (0 <= j)%Z -> ~ parser_200WX.occurs_at parser_200WX.HCHDT bench_buf_long j) \/
   ((0 <= r)%Z /\ parser_200WX.occurs_at parser_200WX.HCHDT bench_buf_long r /\
    forall j, (0 <= j < r)%Z ->
      ~ parser_200WX.occurs_at parser_200WX.HCHDT bench_buf_long j)).
Proof.
  intros r.
  assert (H0 : (0 <= 0)%Z) by reflexivity.
  assert (Hl : (length parser_200WX.HCHDT <= 9)%nat) by (cbn; lia).
  split; [exact H0|]. split; [exact parser_200WX_properties.HCHDT_no_nul|].
  split; [exact Hl|]. split; [reflexivity|].
  exact (parser_200WX_properties.find_string_first_occurrence 0 bench_buf_long
           parser_200WX.HCHDT H0 parser_200WX_properties.HCHDT_no_nul Hl).
Defined.

Lemma jump_to_next_coma_first_witness :
  let r := parser_200WX.jump_to_next_coma 6 bench_buf_hdt in
  (0 <= 6)%Z /\
  r = 11%Z /\
  ((r = (-1)%Z /\
    forall j, (6 <= j)%Z -> parser_200WX.byte_at bench_buf_hdt j <> Some ","%char) \/
   ((6 <= r < Z.of_nat (length bench_buf_hdt))%Z /\
    parser_200WX.byte_at bench_buf_hdt r = Some ","%char /\
    forall j, (6 <= j < r)%Z -> parser_200WX.byte_at bench_buf_hdt j <> Some ","%char)).
Proof.
  intros r.
  assert (H6 : (0 <= 6)%Z) by discriminate.
  split; [exact H6|]. split; [reflexivity|].
  exact (parser_200WX_properties.jump_to_next_coma_first 6 bench_buf_hdt H6).
Defined.

(** The field after the header is "025.3", and the index is left on the
    comma that ends it. *)
Lemma extract_until_coma_field_witness :
  let _ : parser_200WX.libc := bench_libc in
  (0 <= 6)%Z /\
  parser_200WX.f_extract_until_coma 6 bench_buf_hdt
  = (true, 11%Z,
     parser_200WX.atof
       (parser_200WX.c_string (take 5 (parser_200WX.from 6 bench_buf_hdt)))) /\
  parser_200WX.atof
    (parser_200WX.c_string (take 5 (parser_200WX.from 6 bench_buf_hdt))) = 25.3.
Proof.
  intros L.
  assert (H6 : (0 <= 6)%Z) by discriminate.
  split; [exact H6|]. split; [|reflexivity].
  exact (proj1 (parser_200WX_properties.extract_until_coma_field 6 bench_buf_hdt H6)).
Defined.

(** 4723.5, that is 47 degrees and 23.5 minutes. *)
Lemma nmea_ndeg2degree_minutes_witness :
  (0 <= 47 <= INT32_MAX)%Z /\ 0 <= 23.5 /\ 23.5 < 100 /\
  parser_200WX.nmea_ndeg2degree (inject_Z 47 * 100 + 23.5) == inject_Z 47 + 23.5 / 60.
Proof.
  assert (Hd : (0 <= 47 <= INT32_MAX)%Z) by (split; discriminate).
  assert (H0 : 0 <= 23.5) by discriminate.
  assert (H1 : 23.5 < 100) by reflexivity.
  split; [exact Hd|]. split; [exact H0|]. split; [exact H1|].
  exact (proj1 (parser_200WX_properties.nmea_ndeg2degree_minutes 47 23.5 Hd H0 H1)).
Defined.

(** On the simulated heading message the yaw becomes 25.3. *)
Example hdt_parser_bench :
  let _ : parser_200WX.libc := bench_libc in
  parser_200WX.hdt_parser bench_buf_hdt 0 = Some 25.3 /\
  parser_200WX.hdt_parser bench_buf_long 0 = Some 25.3 /\
  parser_200WX.hdt_parser (list_ascii_of_string "HCHDT,1,") 0 = Some 0.
Proof.
  vm_compute. repeat split.
Qed.
